(** * The payload-generator state machine of [v2/pkg/requests/generator.go]

    A shallow embedding of [GeneratorFSM] and its methods, with the locks,
    the channel receive and the run-time panics of the Go code written
    out, followed by the properties of the coordinator that the
    specification states. *)

From Stdlib Require Import ZArith Lia.
From stdpp Require Import gmap strings list fin_maps.

Local Open Scope Z_scope.

(** ** Go run-time primitives used by the file *)

Module Go.

(** [int] on the 64-bit targets: two's complement, additions wrap. *)
Definition max_int : Z := 2 ^ 63 - 1.
Definition min_int : Z := - 2 ^ 63.

Definition wrap (z : Z) : Z := (z + 2 ^ 63) mod 2 ^ 64 - 2 ^ 63.

Definition add (a b : Z) : Z := wrap (a + b).

(** [len] of a slice and of a map ([len] of a nil map is 0). *)
Definition len {A} (l : list A) : Z := Z.of_nat (length l).

Definition map_len {V} (m : option (gmap string V)) : Z :=
  match m with
  | None => 0
  | Some m => Z.of_nat (size m)
  end.

(** [sync.RWMutex], as seen by the one goroutine that runs a method:
    an acquisition that cannot proceed parks the goroutine, and nobody
    else holds the means to release a lock this goroutine took. *)
Inductive RWMutex : Type :=
| Unlocked
| RLocked (readers : positive)
| WLocked.

#[global] Instance RWMutex_eq_dec : EqDecision RWMutex.
Proof. solve_decision. Defined.

Definition Lock (m : RWMutex) : option RWMutex :=
  match m with
  | Unlocked => Some WLocked
  | RLocked _ | WLocked => None
  end.

Definition Unlock (m : RWMutex) : option RWMutex :=
  match m with
  | WLocked => Some Unlocked
  | Unlocked | RLocked _ => None
  end.

Definition RLock (m : RWMutex) : option RWMutex :=
  match m with
  | Unlocked => Some (RLocked 1)
  | RLocked n => Some (RLocked (Pos.succ n))
  | WLocked => None
  end.

Definition RUnlock (m : RWMutex) : option RWMutex :=
  match m with
  | RLocked 1 => Some Unlocked
  | RLocked n => Some (RLocked (Pos.pred n))
  | Unlocked | WLocked => None
  end.

(** What stops a method from returning normally. *)
Inductive fault : Type :=
| IndexOutOfRange (i n : Z)   (* panic: index out of range [i] with length n *)
| NilFuncCall                 (* panic: call of a nil func value *)
| UnlockOfUnlocked.           (* fatal error: unlock of an unlocked RWMutex *)

(** The result of running a piece of code on a state of type [St]. *)
Inductive outcome (St A : Type) : Type :=
| Returned (a : A) (s : St)
| Blocked                     (* parked on a lock for ever *)
| Panicked (e : fault).

Arguments Returned {St A} a s.
Arguments Blocked {St A}.
Arguments Panicked {St A} e.

Definition M (St A : Type) : Type := St -> outcome St A.

Definition ret {St A} (a : A) : M St A := fun s => Returned a s.

Definition bind {St A B} (m : M St A) (k : A -> M St B) : M St B :=
  fun s =>
    match m s with
    | Returned a s' => k a s'
    | Blocked => Blocked
    | Panicked e => Panicked e
    end.

Definition get {St} : M St St := fun s => Returned s s.
Definition put {St} (s : St) : M St unit := fun _ => Returned tt s.
Definition modify {St} (f : St -> St) : M St unit := fun s => Returned tt (f s).
Definition panic {St A} (e : fault) : M St A := fun _ => Panicked e.

(** A struct that embeds [sync.RWMutex]. *)
Class Lockable (St : Type) : Type :=
  { mutex : St -> RWMutex;
    set_mutex : RWMutex -> St -> St }.

(** [x.Lock(); defer x.Unlock(); body] and, as the deferred call is the
    last thing the function does, [x.Lock(); body; x.Unlock()] too. *)
Definition with_Lock {St A} `{Lockable St} (body : M St A) : M St A :=
  fun s =>
    match Lock (mutex s) with
    | None => Blocked
    | Some m =>
        match body (set_mutex m s) with
        | Returned a s' =>
            match Unlock (mutex s') with
            | Some m' => Returned a (set_mutex m' s')
            | None => Panicked UnlockOfUnlocked
            end
        | Blocked => Blocked
        | Panicked e => Panicked e
        end
    end.

(** [x.RLock(); defer x.RUnlock(); body]. *)
Definition with_RLock {St A} `{Lockable St} (body : M St A) : M St A :=
  fun s =>
    match RLock (mutex s) with
    | None => Blocked
    | Some m =>
        match body (set_mutex m s) with
        | Returned a s' =>
            match RUnlock (mutex s') with
            | Some m' => Returned a (set_mutex m' s')
            | None => Panicked UnlockOfUnlocked
            end
        | Blocked => Blocked
        | Panicked e => Panicked e
        end
    end.

(** [l[i]] on a slice, with the bounds check of the run time. *)
Definition index {St} (l : list string) (i : Z) : M St string :=
  if (0 <=? i) && (i <? len l) then
    match l !! Z.to_nat i with
    | Some x => ret x
    | None => panic (IndexOutOfRange i (len l))
    end
  else panic (IndexOutOfRange i (len l)).

(** The value of an [interface{}] held in the payload maps. *)
Inductive iface : Type :=
| IString (s : string)
| IList (l : list string).

(** [map[string]interface{}]; [None] is the nil map. *)
Definition binding : Type := option (gmap string iface).

(** The receiving end of a [chan map[string]interface{}], described by
    what its producer will do next: send a value and go on, close the
    channel, or send nothing before the receiver's timer fires. *)
Inductive chan : Type :=
| Sending (v : binding) (rest : chan)
| Closed
| Stalled.

(** The [select] of a receive against [time.After(15 * time.Second)].
    A receive from a nil channel never proceeds, so only the timer can. *)
Inductive selected : Type :=
| RecvValue (v : binding) (rest : chan)   (* case v, ok := <-c with ok *)
| RecvClosed                              (* case v, ok := <-c with !ok *)
| TimerFired.                             (* case <-afterCh *)

Definition select_recv_or_timeout (c : option chan) : selected :=
  match c with
  | None => TimerFired
  | Some (Sending v rest) => RecvValue v rest
  | Some Closed => RecvClosed
  | Some Stalled => TimerFired
  end.

End Go.

Import Go.

Notation "'do' x <- m ; k" := (bind m (fun x => k))
  (at level 10, x name, m at level 100, k at level 200).

(** ** The data of the package *)

Inductive GeneratorState : Type := Init | Running | Done.

#[global] Instance GeneratorState_eq_dec : EqDecision GeneratorState.
Proof. solve_decision. Defined.

Record Generator : Type := mkGenerator {
  g_mutex : RWMutex;
  positionPath : Z;
  positionRaw : Z;
  currentPayloads : binding;
  gchan : option chan;
  currentGeneratorValue : binding;
  state : GeneratorState
}.

#[global] Instance Generator_lockable : Lockable Generator :=
  {| mutex := g_mutex;
     set_mutex := fun m g =>
       mkGenerator m (positionPath g) (positionRaw g) (currentPayloads g)
                   (gchan g) (currentGeneratorValue g) (state g) |}.

Definition set_positionPath (p : Z) (g : Generator) : Generator :=
  mkGenerator (g_mutex g) p (positionRaw g) (currentPayloads g)
              (gchan g) (currentGeneratorValue g) (state g).

Definition set_positionRaw (p : Z) (g : Generator) : Generator :=
  mkGenerator (g_mutex g) (positionPath g) p (currentPayloads g)
              (gchan g) (currentGeneratorValue g) (state g).

Definition set_gchan (c : option chan) (g : Generator) : Generator :=
  mkGenerator (g_mutex g) (positionPath g) (positionRaw g) (currentPayloads g)
              c (currentGeneratorValue g) (state g).

Definition set_currentGeneratorValue (v : binding) (g : Generator) : Generator :=
  mkGenerator (g_mutex g) (positionPath g) (positionRaw g) (currentPayloads g)
              (gchan g) v (state g).

Definition set_state (st : GeneratorState) (g : Generator) : Generator :=
  mkGenerator (g_mutex g) (positionPath g) (positionRaw g) (currentPayloads g)
              (gchan g) (currentGeneratorValue g) st.

(** [&Generator{state: Init}]: every other field has its zero value. *)
Definition new_Generator : Generator :=
  mkGenerator Unlocked 0 0 None None None Init.

(** Modelled from the spec: the type [generators.Type] is declared in the
    package [generators], outside the file; the specification lists its
    three combination modes. *)
Inductive generators_Type : Type := Sniper | PitchFork | ClusterBomb.

(** The loaded payload lists, [map[string][]string] ([None] is nil). *)
Definition payload_lists : Type := option (gmap string (list string)).

(** Modelled from the spec: the stream producers ([SniperGenerator],
    [PitchforkGenerator], [ClusterbombGenerator]) belong to the package
    [generators], outside the file.  The specification describes each as
    returning a live, closable stream of bindings, so the result is a
    channel and never nil.  The Go functions range over a map, whose order
    changes from call to call, so the stream may depend on which call it
    is: the first argument is the number of streams handed out before. *)
Definition generator_func : Type := nat -> payload_lists -> chan.

Record GeneratorFSM : Type := mkGeneratorFSM {
  fsm_mutex : RWMutex;
  payloads : binding;
  basePayloads : payload_lists;
  generator : option generator_func;
  Generators : gmap string Generator;
  Type_ : option generators_Type;
  Paths : list string;
  Raws : list string;
  (* ghost: the number of calls of [generator] made so far *)
  spawned : nat
}.

#[global] Instance GeneratorFSM_lockable : Lockable GeneratorFSM :=
  {| mutex := fsm_mutex;
     set_mutex := fun m s =>
       mkGeneratorFSM m (payloads s) (basePayloads s) (generator s)
                      (Generators s) (Type_ s) (Paths s) (Raws s) (spawned s) |}.

Definition set_Generators (gs : gmap string Generator) (s : GeneratorFSM)
  : GeneratorFSM :=
  mkGeneratorFSM (fsm_mutex s) (payloads s) (basePayloads s) (generator s)
                 gs (Type_ s) (Paths s) (Raws s) (spawned s).

Definition set_spawned (n : nat) (s : GeneratorFSM) : GeneratorFSM :=
  mkGeneratorFSM (fsm_mutex s) (payloads s) (basePayloads s) (generator s)
                 (Generators s) (Type_ s) (Paths s) (Raws s) n.

(** [*g = g'] for the pointer stored under [key]. *)
Definition store (key : string) (g : Generator) : M GeneratorFSM unit :=
  modify (fun s => set_Generators (<[key := g]> (Generators s)) s).

(** Runs code that works on the struct [gfsm.Generators[key]] points to. *)
Definition on_generator {A} (key : string) (m : M Generator A)
  : M GeneratorFSM (option A) :=
  fun s =>
    match Generators s !! key with
    | None => Returned None s
    | Some g =>
        match m g with
        | Returned a g' =>
            Returned (Some a) (set_Generators (<[key := g']> (Generators s)) s)
        | Blocked => Blocked
        | Panicked e => Panicked e
        end
    end.

(** ** The constructor *)

Section Constructor.

(** Modelled from the spec: [generators.LoadPayloads], outside the file,
    turns the named payload specifications into named lists of values.
    It and the three stream producers are parameters of the constructor. *)
Variable LoadPayloads : binding -> payload_lists.
Variables SniperGenerator PitchforkGenerator ClusterbombGenerator
  : generator_func.

Definition NewGeneratorFSM (typ : generators_Type) (payloads : binding)
    (paths raws : list string) : GeneratorFSM :=
  let nopayloads := mkGeneratorFSM Unlocked payloads None None ∅ None paths raws 0 in
  if 0 <? map_len payloads then
    let base :=
      match basePayloads nopayloads with
      | None => LoadPayloads payloads
      | Some loaded => Some loaded
      end in
    let generatorFunc :=
      match typ with
      | PitchFork => PitchforkGenerator
      | ClusterBomb => ClusterbombGenerator
      | Sniper => SniperGenerator
      end in
    mkGeneratorFSM Unlocked payloads base (Some generatorFunc) ∅ None paths raws 0
  else nopayloads.

End Constructor.

(** ** The methods *)

(** [g, ok := gfsm.Generators[key]] *)
Definition lookup_generator (key : string) : M GeneratorFSM (option Generator) :=
  fun s => Returned (Generators s !! key) s.

Definition Add (key : string) : M GeneratorFSM unit :=
  with_Lock (
    do og <- lookup_generator key;
    match og with
    | None => store key new_Generator
    | Some _ => ret tt
    end).

Definition Has (key : string) : M GeneratorFSM bool :=
  with_RLock (
    do og <- lookup_generator key;
    match og with
    | None => ret false
    | Some _ => ret true
    end).

Definition Delete (key : string) : M GeneratorFSM unit :=
  with_Lock (modify (fun s => set_Generators (delete key (Generators s)) s)).

Definition ReadOne (key : string) : M GeneratorFSM unit :=
  with_RLock (
    do og <- lookup_generator key;
    match og with
    | None => ret tt
    | Some g =>
        match select_recv_or_timeout (gchan g) with
        | RecvValue curGenValue rest =>
            (* the receive took one value out of the channel *)
            store key (set_currentGeneratorValue curGenValue (set_gchan (Some rest) g))
        | RecvClosed =>
            do _ <- on_generator key (with_Lock (modify (fun g =>
                      set_currentGeneratorValue None (set_state Done (set_gchan None g)))));
            ret tt
        | TimerFired =>
            do _ <- on_generator key (with_Lock (modify (fun g =>
                      set_state Done (set_gchan None g))));
            ret tt
        end
    end).

(** [gfsm.generator(gfsm.basePayloads)] *)
Definition call_generator {St} (gfsm : GeneratorFSM) : M St chan :=
  match generator gfsm with
  | None => panic NilFuncCall
  | Some f => ret (f (spawned gfsm) (basePayloads gfsm))
  end.

Definition InitOrSkip (key : string) : M GeneratorFSM unit :=
  with_RLock (
    do og <- lookup_generator key;
    match og with
    | None => ret tt
    | Some _ =>
        do gfsm <- get;
        if 0 <? map_len (payloads gfsm) then
          do started <- on_generator key (with_Lock (
            do g <- get;
            match gchan g with
            | None =>
                do c <- call_generator gfsm;
                do _ <- put (set_state Running (set_gchan (Some c) g));
                ret true
            | Some _ => ret false
            end));
          match started with
          | Some true => modify (fun s => set_spawned (S (spawned s)) s)
          | _ => ret tt
          end
        else ret tt
    end).

Definition Value (key : string) : M GeneratorFSM binding :=
  with_RLock (
    do og <- lookup_generator key;
    match og with
    | None => ret None
    | Some g => ret (currentGeneratorValue g)
    end).

Definition hasPayloads (gfsm : GeneratorFSM) : bool :=
  0 <? map_len (basePayloads gfsm).

Definition Next (key : string) : M GeneratorFSM bool :=
  with_RLock (
    do og <- lookup_generator key;
    match og with
    | None => ret false
    | Some g =>
        do gfsm <- get;
        if hasPayloads gfsm && bool_decide (state g = Done) then ret false
        else if add (positionPath g) (positionRaw g)
                  >=? add (len (Paths gfsm)) (len (Raws gfsm))
        then ret false
        else ret true
    end).

Definition Position (key : string) : M GeneratorFSM Z :=
  with_RLock (
    do og <- lookup_generator key;
    match og with
    | None => ret 0
    | Some g => ret (add (positionPath g) (positionRaw g))
    end).

(** The last lines of [Reset], after the registration of a missing key. *)
Definition Reset_positions (key : string) : M GeneratorFSM unit :=
  do og <- lookup_generator key;
  match og with
  | None => ret tt
  | Some g => store key (set_positionRaw 0 (set_positionPath 0 g))
  end.

Definition Reset (key : string) : M GeneratorFSM unit :=
  with_Lock (
    do has <- Has key;
    do _ <- (if negb has then Add key else ret tt);
    Reset_positions key).

Definition Current (key : string) : M GeneratorFSM string :=
  with_RLock (
    do og <- lookup_generator key;
    match og with
    | None => ret ""%string
    | Some g =>
        do gfsm <- get;
        if (positionPath g <? len (Paths gfsm)) && negb (len (Paths gfsm) =? 0)
        then index (Paths gfsm) (positionPath g)
        else index (Raws gfsm) (positionRaw g)
    end).

Definition Total : M GeneratorFSM Z :=
  do gfsm <- get;
  ret (add (len (Paths gfsm)) (len (Raws gfsm))).

Definition Increment (key : string) : M GeneratorFSM unit :=
  with_Lock (
    do og <- lookup_generator key;
    match og with
    | None => ret tt
    | Some g =>
        do gfsm <- get;
        if (len (Paths gfsm) >? 0) && (positionPath g <? len (Paths gfsm))
        then store key (set_positionPath (add (positionPath g) 1) g)
        else if (len (Raws gfsm) >? 0) && (positionRaw g <? len (Raws gfsm))
        then
          (* if we have payloads increment only when the generators are done *)
          match gchan g with
          | None => store key (set_positionRaw (add (positionRaw g) 1) (set_state Done g))
          | Some _ => ret tt
          end
        else ret tt
    end).

(** ** Sequences of calls *)

(** The exposed operations, as a caller invokes them. *)
Inductive call : Type :=
| CallAdd (key : string)
| CallHas (key : string)
| CallDelete (key : string)
| CallReset (key : string)
| CallInitOrSkip (key : string)
| CallReadOne (key : string)
| CallValue (key : string)
| CallNext (key : string)
| CallPosition (key : string)
| CallCurrent (key : string)
| CallTotal
| CallIncrement (key : string).

Definition forget {St A} (m : M St A) : M St unit :=
  do _ <- m; ret tt.

Definition run (c : call) : M GeneratorFSM unit :=
  match c with
  | CallAdd key => Add key
  | CallHas key => forget (Has key)
  | CallDelete key => Delete key
  | CallReset key => Reset key
  | CallInitOrSkip key => InitOrSkip key
  | CallReadOne key => ReadOne key
  | CallValue key => forget (Value key)
  | CallNext key => forget (Next key)
  | CallPosition key => forget (Position key)
  | CallCurrent key => forget (Current key)
  | CallTotal => forget Total
  | CallIncrement key => Increment key
  end.

(** One call after the other, each started when the one before it has
    returned. *)
Fixpoint exec (cs : list call) : M GeneratorFSM unit :=
  match cs with
  | [] => ret tt
  | c :: cs' => do _ <- run c; exec cs'
  end.

(** The state a sequence of calls leaves, when every call returns. *)
Definition state_after (cs : list call) (s : GeneratorFSM) : option GeneratorFSM :=
  match exec cs s with
  | Returned _ s' => Some s'
  | Blocked | Panicked _ => None
  end.

(** The value a method returns, when it does. *)
Definition result {St A} (o : outcome St A) : option A :=
  match o with
  | Returned a _ => Some a
  | Blocked | Panicked _ => None
  end.

(** No method is running: the lock of the coordinator and the lock of
    every key are free. *)
Definition quiescent (s : GeneratorFSM) : Prop :=
  fsm_mutex s = Unlocked /\
  forall key g, Generators s !! key = Some g -> g_mutex g = Unlocked.

(** A coordinator as the constructor makes it: a producer is chosen as
    soon as payloads are given. *)
Definition producer_set (s : GeneratorFSM) : Prop :=
  0 < map_len (payloads s) -> is_Some (generator s).

(** ** Invariants of the key states *)

(** A property of every registered key. *)
Definition all_generators (Q : Generator -> Prop) (s : GeneratorFSM) : Prop :=
  forall key g, Generators s !! key = Some g -> Q g.

(** A coordinator between two calls: its lock is free, its static lists
    are the ones it was built with, and every key satisfies [Q]. *)
Definition stable (paths raws : list string) (Q : Generator -> Prop)
    (s : GeneratorFSM) : Prop :=
  fsm_mutex s = Unlocked /\ Paths s = paths /\ Raws s = raws
  /\ all_generators Q s.

(** A key in phase [Running] owns a stream handle. *)
Definition running_has_stream (g : Generator) : Prop :=
  state g = Running -> is_Some (gchan g).

(** Both counters are indices into, or the lengths of, their lists. *)
Definition within_bounds (paths raws : list string) (g : Generator) : Prop :=
  (0 <= positionPath g <= len paths) /\ (0 <= positionRaw g <= len raws).

(** The lock of the key is free. *)
Definition key_unlocked (g : Generator) : Prop := g_mutex g = Unlocked.

(** ** What a call that returned has done *)

(** The key a call is about. *)
Definition target (c : call) : option string :=
  match c with
  | CallTotal => None
  | CallAdd key | CallHas key | CallDelete key | CallReset key
  | CallInitOrSkip key | CallReadOne key | CallValue key | CallNext key
  | CallPosition key | CallCurrent key | CallIncrement key => Some key
  end.

(** The methods that only read. *)
Definition is_query (c : call) : bool :=
  match c with
  | CallHas _ | CallValue _ | CallNext _ | CallPosition _ | CallCurrent _
  | CallTotal => true
  | CallAdd _ | CallDelete _ | CallReset _ | CallInitOrSkip _ | CallReadOne _
  | CallIncrement _ => false
  end.

Definition update_key (key : string) (g : Generator) (s : GeneratorFSM)
  : GeneratorFSM :=
  set_Generators (<[key := g]> (Generators s)) s.

(** The assignments of the methods, one constructor for each place of the
    source that writes to the coordinator or to a key. *)
Inductive step : call -> GeneratorFSM -> GeneratorFSM -> Prop :=
| step_same c s :
    step c s s
| step_add key s :
    Generators s !! key = None ->
    step (CallAdd key) s (update_key key new_Generator s)
| step_delete key s :
    step (CallDelete key) s (set_Generators (delete key (Generators s)) s)
| step_start key s g f :
    Generators s !! key = Some g ->
    0 < map_len (payloads s) ->
    gchan g = None ->
    generator s = Some f ->
    step (CallInitOrSkip key) s
      (set_spawned (S (spawned s))
         (update_key key
            (set_state Running
               (set_gchan (Some (f (spawned s) (basePayloads s))) g)) s))
| step_received key s g v rest :
    Generators s !! key = Some g ->
    gchan g = Some (Sending v rest) ->
    step (CallReadOne key) s
      (update_key key (set_currentGeneratorValue v (set_gchan (Some rest) g)) s)
| step_closed key s g :
    Generators s !! key = Some g ->
    gchan g = Some Closed ->
    step (CallReadOne key) s
      (update_key key
         (set_currentGeneratorValue None (set_state Done (set_gchan None g))) s)
| step_timer key s g :
    Generators s !! key = Some g ->
    gchan g = None \/ gchan g = Some Stalled ->
    step (CallReadOne key) s
      (update_key key (set_state Done (set_gchan None g)) s)
| step_path key s g :
    Generators s !! key = Some g ->
    positionPath g < len (Paths s) ->
    step (CallIncrement key) s
      (update_key key (set_positionPath (add (positionPath g) 1) g) s)
| step_raw key s g :
    Generators s !! key = Some g ->
    positionRaw g < len (Raws s) ->
    gchan g = None ->
    step (CallIncrement key) s
      (update_key key
         (set_positionRaw (add (positionRaw g) 1) (set_state Done g)) s).

(** A channel whose producer sends the bindings [vs] in order and then
    behaves as [tail]. *)
Fixpoint stream_of (vs : list binding) (tail : chan) : chan :=
  match vs with
  | [] => tail
  | v :: vs' => Sending v (stream_of vs' tail)
  end.

(** ** Two small coordinators *)

Module Sample.

Definition loaded : payload_lists :=
  Some {[ "var"%string := ["x"; "y"]%string ]}.

Definition LoadPayloads : binding -> payload_lists := fun _ => loaded.

(** A producer that sends two bindings and closes its channel. *)
Definition xy : chan :=
  Sending (Some {[ "var"%string := IString "x" ]})
    (Sending (Some {[ "var"%string := IString "y" ]}) Closed).

Definition producer : generator_func := fun _ _ => xy.

Definition specs : binding :=
  Some {[ "var"%string := IList ["x"; "y"]%string ]}.

(** Two paths, no raw request, no payloads. *)
Definition static_only : GeneratorFSM :=
  NewGeneratorFSM LoadPayloads producer producer producer
    Sniper None ["a"; "b"]%string [].

(** One raw request and a sniper stream over one payload list. *)
Definition with_payloads : GeneratorFSM :=
  NewGeneratorFSM LoadPayloads producer producer producer
    Sniper specs [] ["r"]%string.

(** The same coordinators after some calls on the key ["k"]. *)
Definition after (cs : list call) (s : GeneratorFSM) : GeneratorFSM :=
  match state_after cs s with
  | Some s' => s'
  | None => s
  end.

Definition k : string := "k".

(** ["k"] registered and advanced by one path. *)
Definition advanced : GeneratorFSM :=
  after [CallAdd k; CallIncrement k] static_only.

(** ["k"] registered, with its stream started. *)
Definition streaming : GeneratorFSM :=
  after [CallAdd k; CallInitOrSkip k] with_payloads.

End Sample.

(** * Properties *)

(** ** Integers *)

Lemma len_nonneg {A} (l : list A) : 0 <= len l.
Proof. unfold len. lia. Qed.

Lemma wrap_in_range (z : Z) : min_int <= z <= max_int -> wrap z = z.
Proof.
  unfold wrap, min_int, max_int. intros Hz.
  rewrite Z.mod_small; lia.
Qed.

Lemma add_in_range (a b : Z) : min_int <= a + b <= max_int -> add a b = a + b.
Proof. apply wrap_in_range. Qed.

Lemma add_one_below (p n : Z) : 0 <= p < n -> n <= max_int -> add p 1 = p + 1.
Proof.
  intros Hp Hn. apply add_in_range. unfold min_int, max_int in *. lia.
Qed.

(** ** Locks *)

Lemma Lock_Some (m m' : RWMutex) : Lock m = Some m' -> m = Unlocked /\ m' = WLocked.
Proof. destruct m; simpl; intros H; inversion H; auto. Qed.

Lemma RLock_WLocked : RLock WLocked = None.
Proof. reflexivity. Qed.

(** A critical section on one key that only assigns fields. *)
Lemma on_generator_with_Lock_modify (key : string) (f : Generator -> Generator)
    (s : GeneratorFSM) (g : Generator) :
  Generators s !! key = Some g ->
  (forall m x, f (set_mutex m x) = set_mutex m (f x)) ->
  on_generator key (with_Lock (modify f)) s =
    if decide (g_mutex g = Unlocked)
    then Returned (Some tt) (set_Generators (<[key := f g]> (Generators s)) s)
    else Blocked.
Proof.
  intros Hg Hf. unfold on_generator, with_Lock, modify. rewrite Hg. simpl.
  destruct g as [m pp pr cp c v st]; simpl.
  destruct m; simpl; try reflexivity.
  change (mkGenerator WLocked pp pr cp c v st)
    with (set_mutex WLocked (mkGenerator Unlocked pp pr cp c v st)).
  rewrite Hf. simpl. do 3 f_equal.
  destruct (f (mkGenerator Unlocked pp pr cp c v st)) eqn:E.
  assert (Hm : g_mutex (f (mkGenerator Unlocked pp pr cp c v st)) = Unlocked).
  { change (mkGenerator Unlocked pp pr cp c v st)
      with (set_mutex Unlocked (mkGenerator Unlocked pp pr cp c v st)).
    rewrite Hf. reflexivity. }
  rewrite E in Hm. simpl in *. subst. reflexivity.
Qed.

(** ** What each method computes when the coordinator's lock is free *)

Ltac unlocked s H :=
  destruct s as [mu ps bps gen gs ty paths raws n]; simpl in H; subst mu.

Lemma Add_eq (key : string) (s : GeneratorFSM) :
  fsm_mutex s = Unlocked ->
  Add key s =
    Returned tt
      match Generators s !! key with
      | None => set_Generators (<[key := new_Generator]> (Generators s)) s
      | Some _ => s
      end.
Proof.
  intros H. unlocked s H.
  unfold Add, with_Lock, bind, lookup_generator, store, modify, ret; simpl.
  destruct (gs !! key); reflexivity.
Qed.

Lemma Has_eq (key : string) (s : GeneratorFSM) :
  fsm_mutex s = Unlocked ->
  Has key s =
    Returned match Generators s !! key with
             | None => false
             | Some _ => true
             end s.
Proof.
  intros H. unlocked s H.
  unfold Has, with_RLock, bind, lookup_generator, ret; simpl.
  destruct (gs !! key); reflexivity.
Qed.

Lemma Delete_eq (key : string) (s : GeneratorFSM) :
  fsm_mutex s = Unlocked ->
  Delete key s = Returned tt (set_Generators (delete key (Generators s)) s).
Proof.
  intros H. unlocked s H. reflexivity.
Qed.

Lemma Value_eq (key : string) (s : GeneratorFSM) :
  fsm_mutex s = Unlocked ->
  Value key s =
    Returned match Generators s !! key with
             | None => None
             | Some g => currentGeneratorValue g
             end s.
Proof.
  intros H. unlocked s H.
  unfold Value, with_RLock, bind, lookup_generator, ret; simpl.
  destruct (gs !! key); reflexivity.
Qed.

Lemma Position_eq (key : string) (s : GeneratorFSM) :
  fsm_mutex s = Unlocked ->
  Position key s =
    Returned match Generators s !! key with
             | None => 0
             | Some g => add (positionPath g) (positionRaw g)
             end s.
Proof.
  intros H. unlocked s H.
  unfold Position, with_RLock, bind, lookup_generator, ret; simpl.
  destruct (gs !! key); reflexivity.
Qed.

Lemma Total_eq (s : GeneratorFSM) :
  Total s = Returned (add (len (Paths s)) (len (Raws s))) s.
Proof. reflexivity. Qed.

Lemma Next_eq (key : string) (s : GeneratorFSM) :
  fsm_mutex s = Unlocked ->
  Next key s =
    Returned match Generators s !! key with
             | None => false
             | Some g =>
                 negb (hasPayloads s && bool_decide (state g = Done))
                 && negb (add (positionPath g) (positionRaw g)
                            >=? add (len (Paths s)) (len (Raws s)))
             end s.
Proof.
  intros H. unlocked s H.
  unfold Next, with_RLock, bind, lookup_generator, get, ret; simpl.
  destruct (gs !! key) as [g|]; simpl; [|reflexivity].
  destruct (hasPayloads _ && _); simpl; [reflexivity|].
  destruct (_ >=? _); reflexivity.
Qed.

Lemma Reset_eq (key : string) (s : GeneratorFSM) : Reset key s = Blocked.
Proof.
  unfold Reset, with_Lock.
  destruct (Lock (mutex s)) as [m|] eqn:E; [|reflexivity].
  apply Lock_Some in E as [_ ->].
  unfold bind, Has, with_RLock. simpl. reflexivity.
Qed.

Lemma ReadOne_eq (key : string) (s : GeneratorFSM) :
  fsm_mutex s = Unlocked ->
  ReadOne key s =
    match Generators s !! key with
    | None => Returned tt s
    | Some g =>
        match select_recv_or_timeout (gchan g) with
        | RecvValue v rest =>
            Returned tt (set_Generators
              (<[key := set_currentGeneratorValue v (set_gchan (Some rest) g)]>
                 (Generators s)) s)
        | RecvClosed =>
            if decide (g_mutex g = Unlocked)
            then Returned tt (set_Generators
              (<[key := set_currentGeneratorValue None
                          (set_state Done (set_gchan None g))]>
                 (Generators s)) s)
            else Blocked
        | TimerFired =>
            if decide (g_mutex g = Unlocked)
            then Returned tt (set_Generators
              (<[key := set_state Done (set_gchan None g)]> (Generators s)) s)
            else Blocked
        end
    end.
Proof.
  intros H. unlocked s H.
  unfold ReadOne, with_RLock, bind, lookup_generator, ret; simpl.
  destruct (gs !! key) as [g|] eqn:Hg; simpl; [|reflexivity].
  destruct (select_recv_or_timeout (gchan g)); simpl; [reflexivity| |].
  - rewrite (on_generator_with_Lock_modify key _ _ g) by (simpl; auto).
    destruct (decide _); reflexivity.
  - rewrite (on_generator_with_Lock_modify key _ _ g) by (simpl; auto).
    destruct (decide _); reflexivity.
Qed.

Lemma InitOrSkip_eq (key : string) (s : GeneratorFSM) :
  fsm_mutex s = Unlocked ->
  InitOrSkip key s =
    match Generators s !! key with
    | None => Returned tt s
    | Some g =>
        if 0 <? map_len (payloads s) then
          if decide (g_mutex g = Unlocked) then
            match gchan g with
            | Some _ => Returned tt s
            | None =>
                match generator s with
                | None => Panicked NilFuncCall
                | Some f =>
                    Returned tt
                      (set_spawned (S (spawned s))
                         (set_Generators
                            (<[key := set_state Running
                                        (set_gchan (Some (f (spawned s) (basePayloads s))) g)]>
                               (Generators s)) s))
                end
            end
          else Blocked
        else Returned tt s
    end.
Proof.
  intros H. unlocked s H.
  unfold InitOrSkip, with_RLock, bind, lookup_generator, get, ret; simpl.
  destruct (gs !! key) as [g|] eqn:Hg; simpl; [|reflexivity].
  destruct (0 <? map_len ps); simpl; [|reflexivity].
  unfold on_generator, with_Lock, bind, get, put, call_generator, panic, ret,
    modify; simpl.
  rewrite Hg.
  destruct g as [m pp pr cp c v st]; simpl.
  destruct m; simpl; try reflexivity.
  destruct c as [c|]; simpl.
  - rewrite insert_id by exact Hg. reflexivity.
  - destruct gen as [f|]; reflexivity.
Qed.

Lemma Current_eq (key : string) (s : GeneratorFSM) :
  fsm_mutex s = Unlocked ->
  Current key s =
    match Generators s !! key with
    | None => Returned ""%string s
    | Some g =>
        if (positionPath g <? len (Paths s)) && negb (len (Paths s) =? 0)
        then index (Paths s) (positionPath g) s
        else index (Raws s) (positionRaw g) s
    end.
Proof.
  intros H. unlocked s H.
  unfold Current, with_RLock, bind, lookup_generator, get, ret; simpl.
  destruct (gs !! key) as [g|]; simpl; [|reflexivity].
  unfold index, panic, ret.
  destruct (_ && negb _); simpl;
    destruct (_ && _); simpl; try reflexivity;
    destruct (_ !! Z.to_nat _); reflexivity.
Qed.

Lemma Increment_eq (key : string) (s : GeneratorFSM) :
  fsm_mutex s = Unlocked ->
  Increment key s =
    Returned tt
      match Generators s !! key with
      | None => s
      | Some g =>
          if (len (Paths s) >? 0) && (positionPath g <? len (Paths s))
          then set_Generators
                 (<[key := set_positionPath (add (positionPath g) 1) g]>
                    (Generators s)) s
          else if (len (Raws s) >? 0) && (positionRaw g <? len (Raws s))
          then match gchan g with
               | None =>
                   set_Generators
                     (<[key := set_positionRaw (add (positionRaw g) 1)
                                 (set_state Done g)]>
                        (Generators s)) s
               | Some _ => s
               end
          else s
      end.
Proof.
  intros H. unlocked s H.
  unfold Increment, with_Lock, bind, lookup_generator, get, store, modify, ret;
    simpl.
  destruct (gs !! key) as [g|]; simpl; [|reflexivity].
  destruct (_ && (positionPath g <? _)); simpl; [reflexivity|].
  destruct (_ && (positionRaw g <? _)); simpl; [|reflexivity].
  destruct (gchan g); reflexivity.
Qed.

(** ** Registration *)

(** C8: [Add(key)] inserts a fresh key state with phase [Init] (and every
    other field zero) when the key is absent; on a key that is present it
    is a no-op, whatever position, phase, stream handle and latest binding
    the key has; hence a second [Add] changes nothing. *)
Theorem Add_inserts_fresh_state_once (key : string) (s : GeneratorFSM) :
  fsm_mutex s = Unlocked ->
  (Generators s !! key = None ->
   Add key s =
     Returned tt
       (set_Generators
          (<[key := mkGenerator Unlocked 0 0 None None None Init]> (Generators s)) s))
  /\ (forall g, Generators s !! key = Some g -> Add key s = Returned tt s)
  /\ (forall s1, Add key s = Returned tt s1 -> Add key s1 = Returned tt s1).
Proof.
  intros Hmu. repeat split.
  - intros Hnone. rewrite Add_eq, Hnone by assumption. reflexivity.
  - intros g Hg. rewrite Add_eq, Hg by assumption. reflexivity.
  - intros s1 H1. rewrite Add_eq in H1 by assumption.
    injection H1 as <-.
    destruct (Generators s !! key) eqn:E.
    + rewrite Add_eq, E by assumption. reflexivity.
    + rewrite Add_eq by assumption. simpl.
      rewrite lookup_insert_eq. reflexivity.
Qed.

Lemma Add_inserts_fresh_state_once_witness :
  Add Sample.k Sample.static_only =
    Returned tt
      (set_Generators
         (<[Sample.k := mkGenerator Unlocked 0 0 None None None Init]>
            (Generators Sample.static_only)) Sample.static_only)
  /\ Add Sample.k Sample.advanced = Returned tt Sample.advanced.
Proof.
  split.
  - apply (Add_inserts_fresh_state_once Sample.k Sample.static_only);
      reflexivity.
  - apply (Add_inserts_fresh_state_once Sample.k Sample.advanced eq_refl)
      with (g := mkGenerator Unlocked 1 0 None None None Init).
    reflexivity.
Defined.

(** ** Progress over the static lists *)

(** C4: [Next(key)] is false for a key that is not registered.  For a
    registered key it is false when payloads are loaded and the phase is
    [Done], false when [Position(key)], the sum of the two counters, has
    reached [Total()], the sum of the lengths of the path list and of the
    raw list, and true otherwise. *)
Theorem Next_reports_remaining_work (key : string) (s : GeneratorFSM) :
  fsm_mutex s = Unlocked ->
  (Generators s !! key = None -> Next key s = Returned false s)
  /\ (forall g, Generators s !! key = Some g ->
      let p := add (positionPath g) (positionRaw g) in
      let t := add (len (Paths s)) (len (Raws s)) in
      Position key s = Returned p s
      /\ Total s = Returned t s
      /\ (hasPayloads s = true -> state g = Done -> Next key s = Returned false s)
      /\ (t <= p -> Next key s = Returned false s)
      /\ (~ (hasPayloads s = true /\ state g = Done) -> p < t ->
          Next key s = Returned true s))
  /\ (len (Paths s) + len (Raws s) <= max_int ->
      Total s = Returned (len (Paths s) + len (Raws s)) s).
Proof.
  intros Hmu. split; [|split].
  - intros Hnone. rewrite Next_eq, Hnone by assumption. reflexivity.
  - intros g Hg p t. rewrite Position_eq, Next_eq, Hg by assumption.
    fold p t. repeat split.
    + intros Hp Hd. rewrite Hp, bool_decide_eq_true_2 by assumption.
      reflexivity.
    + intros Hle. replace (p >=? t) with true by (symmetry; lia).
      rewrite andb_false_r. reflexivity.
    + intros Hnd Hlt. replace (p >=? t) with false by (symmetry; lia).
      destruct (hasPayloads s) eqn:Hp; simpl; [|reflexivity].
      rewrite bool_decide_eq_false_2; [reflexivity|].
      intros Hd. apply Hnd. auto.
  - intros Hfit. rewrite Total_eq, add_in_range; [reflexivity|].
    pose proof (len_nonneg (Paths s)). pose proof (len_nonneg (Raws s)).
    unfold min_int. lia.
Qed.

Lemma Next_reports_remaining_work_witness :
  Next Sample.k Sample.advanced = Returned true Sample.advanced
  /\ Position Sample.k Sample.advanced = Returned 1 Sample.advanced
  /\ Total Sample.advanced = Returned 2 Sample.advanced.
Proof.
  destruct (Next_reports_remaining_work Sample.k Sample.advanced eq_refl)
    as (_ & Hreg & Htot).
  destruct (Hreg (mkGenerator Unlocked 1 0 None None None Init) eq_refl)
    as (Hpos & _ & _ & _ & Htrue).
  split; [|split].
  - apply Htrue; [intros [Hp _]; discriminate Hp | reflexivity].
  - exact Hpos.
  - apply Htot. vm_compute. discriminate.
Defined.

(** C6: for a registered key, whose counters are not negative,
    [Current(key)] returns the literal at [pathPosition] of the path list
    when that index is below the length of the list and the list is not
    empty.  Otherwise it indexes the raw list at [rawPosition] with no
    guard of its own: it returns the literal there when there is one, and
    the bounds check of the run time panics when there is none.  For a
    key that is not registered it returns the empty string. *)
Theorem Current_reads_path_then_raw (key : string) (s : GeneratorFSM) :
  fsm_mutex s = Unlocked ->
  (Generators s !! key = None -> Current key s = Returned ""%string s)
  /\ (forall g, Generators s !! key = Some g -> 0 <= positionPath g ->
      (positionPath g < len (Paths s) /\ Paths s <> [] ->
       exists lit, Paths s !! Z.to_nat (positionPath g) = Some lit
                   /\ Current key s = Returned lit s)
      /\ (~ (positionPath g < len (Paths s) /\ Paths s <> []) ->
          Current key s = index (Raws s) (positionRaw g) s
          /\ (0 <= positionRaw g < len (Raws s) ->
              exists lit, Raws s !! Z.to_nat (positionRaw g) = Some lit
                          /\ Current key s = Returned lit s)
          /\ (~ (0 <= positionRaw g < len (Raws s)) ->
              Current key s =
                Panicked (IndexOutOfRange (positionRaw g) (len (Raws s)))))).
Proof.
  intros Hmu. split.
  - intros Hnone. rewrite Current_eq, Hnone by assumption. reflexivity.
  - intros g Hg Hpp.
    assert (Hidx : forall l i, 0 <= i < len l ->
              exists lit, l !! Z.to_nat i = Some lit
                          /\ @index GeneratorFSM l i s = Returned lit s).
    { intros l i Hi.
      destruct (lookup_lt_is_Some_2 l (Z.to_nat i)) as [lit Hlit].
      { unfold len in Hi. lia. }
      exists lit. split; [assumption|]. unfold index.
      replace (0 <=? i) with true by (symmetry; lia).
      replace (i <? len l) with true by (symmetry; lia).
      simpl. rewrite Hlit. reflexivity. }
    assert (Hout : forall l i, ~ (0 <= i < len l) ->
              @index GeneratorFSM l i s = Panicked (IndexOutOfRange i (len l))).
    { intros l i Hi. unfold index.
      destruct (0 <=? i) eqn:E1; simpl; [|reflexivity].
      destruct (i <? len l) eqn:E2; simpl; [|reflexivity].
      exfalso. apply Hi. lia. }
    assert (Hempty : len (Paths s) = 0 <-> Paths s = []).
    { unfold len. destruct (Paths s); simpl; split; intros; try lia;
        congruence. }
    rewrite Current_eq, Hg by assumption. split.
    + intros [Hlt Hne].
      replace (positionPath g <? len (Paths s)) with true by (symmetry; lia).
      replace (len (Paths s) =? 0) with false
        by (symmetry; apply Z.eqb_neq; intros E; apply Hne, Hempty, E).
      simpl. apply Hidx. lia.
    + intros Hnot.
      assert (Hcond : (positionPath g <? len (Paths s))
                      && negb (len (Paths s) =? 0) = false).
      { destruct (positionPath g <? len (Paths s)) eqn:E1; simpl; [|reflexivity].
        destruct (len (Paths s) =? 0) eqn:E2; simpl; [reflexivity|].
        exfalso. apply Hnot. split; [lia|].
        intros E. apply Hempty in E. lia. }
      rewrite Hcond. split; [reflexivity|]. split.
      * apply Hidx.
      * apply Hout.
Qed.

Lemma Current_reads_path_then_raw_witness :
  Current Sample.k Sample.advanced = Returned "b"%string Sample.advanced
  /\ Current Sample.k
       (Sample.after [CallIncrement Sample.k] Sample.advanced) =
     Panicked (IndexOutOfRange 0 0).
Proof.
  split.
  - destruct (Current_reads_path_then_raw Sample.k Sample.advanced eq_refl)
      as [_ Hreg].
    destruct (Hreg (mkGenerator Unlocked 1 0 None None None Init) eq_refl)
      as [Hpath _]; [simpl; lia|].
    destruct Hpath as (lit & Hlit & Hcur).
    { split; [reflexivity | discriminate]. }
    simpl in Hlit. injection Hlit as <-. exact Hcur.
  - destruct (Current_reads_path_then_raw Sample.k
                (Sample.after [CallIncrement Sample.k] Sample.advanced)
                eq_refl) as [_ Hreg].
    destruct (Hreg (mkGenerator Unlocked 2 0 None None None Init) eq_refl)
      as [_ Hraw]; [simpl; lia|].
    destruct Hraw as (_ & _ & Hpanic).
    { intros [Hlt _]. vm_compute in Hlt. discriminate Hlt. }
    apply Hpanic. intros [_ Hlt]. vm_compute in Hlt. discriminate Hlt.
Defined.

(** C3: for a registered key, one call of [Increment(key)] advances one
    counter, never both, and which one is fixed by priority.  While [pathPosition]
    is within the path list, it is [pathPosition] that advances, and
    nothing else changes.  Otherwise, when [rawPosition] is within the raw
    list (which is then not empty), [rawPosition] advances only if the key
    has no stream handle, and that advance sets the phase to [Done]; with
    a live handle nothing changes.  Nothing changes either when both
    counters are exhausted or the key is unknown.  The lengths of Go
    slices fit [int], so the advance is by exactly one. *)
Theorem Increment_advances_one_counter (key : string) (s : GeneratorFSM) :
  fsm_mutex s = Unlocked ->
  len (Paths s) <= max_int ->
  len (Raws s) <= max_int ->
  (Generators s !! key = None -> Increment key s = Returned tt s)
  /\ (forall g, Generators s !! key = Some g ->
      0 <= positionPath g -> 0 <= positionRaw g ->
      (positionPath g < len (Paths s) ->
       Increment key s =
         Returned tt
           (set_Generators
              (<[key := set_positionPath (positionPath g + 1) g]> (Generators s)) s))
      /\ (len (Paths s) <= positionPath g ->
          positionRaw g < len (Raws s) ->
          gchan g = None ->
          Increment key s =
            Returned tt
              (set_Generators
                 (<[key := set_positionRaw (positionRaw g + 1) (set_state Done g)]>
                    (Generators s)) s))
      /\ (len (Paths s) <= positionPath g ->
          positionRaw g < len (Raws s) ->
          is_Some (gchan g) ->
          Increment key s = Returned tt s)
      /\ (len (Paths s) <= positionPath g ->
          len (Raws s) <= positionRaw g ->
          Increment key s = Returned tt s)).
Proof.
  intros Hmu HP HR. split.
  - intros Hnone. rewrite Increment_eq, Hnone by assumption. reflexivity.
  - intros g Hg Hpp Hpr. rewrite Increment_eq, Hg by assumption.
    repeat split.
    + intros Hlt.
      replace (len (Paths s) >? 0) with true by (symmetry; lia).
      replace (positionPath g <? len (Paths s)) with true by (symmetry; lia).
      simpl. rewrite (add_one_below _ (len (Paths s))) by lia. reflexivity.
    + intros Hge Hlt Hc.
      replace (positionPath g <? len (Paths s)) with false by (symmetry; lia).
      rewrite andb_false_r.
      replace (len (Raws s) >? 0) with true by (symmetry; lia).
      replace (positionRaw g <? len (Raws s)) with true by (symmetry; lia).
      simpl. rewrite Hc, (add_one_below _ (len (Raws s))) by lia. reflexivity.
    + intros Hge Hlt [c Hc].
      replace (positionPath g <? len (Paths s)) with false by (symmetry; lia).
      rewrite andb_false_r.
      replace (len (Raws s) >? 0) with true by (symmetry; lia).
      replace (positionRaw g <? len (Raws s)) with true by (symmetry; lia).
      simpl. rewrite Hc. reflexivity.
    + intros Hge Hge'.
      replace (positionPath g <? len (Paths s)) with false by (symmetry; lia).
      replace (positionRaw g <? len (Raws s)) with false by (symmetry; lia).
      rewrite !andb_false_r. reflexivity.
Qed.

Lemma Increment_advances_one_counter_witness :
  Increment Sample.k Sample.advanced =
    Returned tt
      (set_Generators
         (<[Sample.k := mkGenerator Unlocked 2 0 None None None Init]>
            (Generators Sample.advanced)) Sample.advanced)
  /\ Increment Sample.k Sample.streaming = Returned tt Sample.streaming.
Proof.
  split.
  - destruct (Increment_advances_one_counter Sample.k Sample.advanced)
      as [_ Hreg]; [reflexivity | vm_compute; discriminate
                   | vm_compute; discriminate |].
    destruct (Hreg (mkGenerator Unlocked 1 0 None None None Init) eq_refl)
      as [Hpath _]; [simpl; lia | simpl; lia |].
    apply Hpath. reflexivity.
  - destruct (Increment_advances_one_counter Sample.k Sample.streaming)
      as [_ Hreg]; [reflexivity | vm_compute; discriminate
                   | vm_compute; discriminate |].
    destruct (Hreg (mkGenerator Unlocked 0 0 None (Some Sample.xy) None Running)
                eq_refl) as (_ & _ & Hlive & _); [simpl; lia | simpl; lia |].
    apply Hlive; [vm_compute; discriminate | reflexivity | simpl; eauto].
Defined.

(** ** The dynamic stream *)

(** C2: for a registered key with a live stream, [ReadOne(key)] ends in one
    of three ways, according to what the stream does before the timer
    fires.  A binding arrives: it becomes the latest binding, the handle
    stays and the phase is unchanged.  The stream is closed: the handle and
    the latest binding are cleared and the phase is [Done].  Nothing
    arrives in time: the handle is cleared, the latest binding stays as it
    was and the phase is [Done].  For a key that is not registered
    [ReadOne] changes nothing. *)
Theorem ReadOne_three_outcomes (key : string) (s : GeneratorFSM) :
  fsm_mutex s = Unlocked ->
  (Generators s !! key = None -> ReadOne key s = Returned tt s)
  /\ (forall g c, Generators s !! key = Some g ->
      g_mutex g = Unlocked ->
      gchan g = Some c ->
      (forall v rest, c = Sending v rest ->
         ReadOne key s =
           Returned tt
             (set_Generators
                (<[key := mkGenerator Unlocked (positionPath g) (positionRaw g)
                            (currentPayloads g) (Some rest) v (state g)]>
                   (Generators s)) s))
      /\ (c = Closed ->
          ReadOne key s =
            Returned tt
              (set_Generators
                 (<[key := mkGenerator Unlocked (positionPath g) (positionRaw g)
                             (currentPayloads g) None None Done]>
                    (Generators s)) s))
      /\ (c = Stalled ->
          ReadOne key s =
            Returned tt
              (set_Generators
                 (<[key := mkGenerator Unlocked (positionPath g) (positionRaw g)
                             (currentPayloads g) None (currentGeneratorValue g)
                             Done]>
                    (Generators s)) s))
      /\ ((exists v rest, c = Sending v rest) \/ c = Closed \/ c = Stalled)).
Proof.
  intros Hmu. split.
  - intros Hnone. rewrite ReadOne_eq, Hnone by assumption. reflexivity.
  - intros g c Hg Hgm Hc. rewrite ReadOne_eq, Hg, Hc by assumption.
    repeat split.
    + intros v rest ->. simpl. unfold set_currentGeneratorValue, set_gchan.
      simpl. rewrite Hgm. reflexivity.
    + intros ->. simpl. rewrite decide_True by assumption.
      unfold set_currentGeneratorValue, set_state, set_gchan. simpl.
      rewrite Hgm. reflexivity.
    + intros ->. simpl. rewrite decide_True by assumption.
      unfold set_state, set_gchan. simpl. rewrite Hgm. reflexivity.
    + destruct c; eauto.
Qed.

Lemma ReadOne_three_outcomes_witness :
  ReadOne Sample.k Sample.streaming =
    Returned tt
      (set_Generators
         (<[Sample.k :=
              mkGenerator Unlocked 0 0 None
                (Some (Sending (Some {[ "var"%string := IString "y" ]}) Closed))
                (Some {[ "var"%string := IString "x" ]}) Running]>
            (Generators Sample.streaming)) Sample.streaming).
Proof.
  destruct (ReadOne_three_outcomes Sample.k Sample.streaming eq_refl)
    as [_ Hreg].
  destruct (Hreg (mkGenerator Unlocked 0 0 None (Some Sample.xy) None Running)
              Sample.xy eq_refl eq_refl eq_refl) as (Hval & _).
  apply (Hval (Some {[ "var"%string := IString "x" ]})
              (Sending (Some {[ "var"%string := IString "y" ]}) Closed)).
  reflexivity.
Defined.

(** C7: [InitOrSkip(key)] changes nothing when no payloads are configured
    or when the key is not registered.  Otherwise, for a key without a
    stream handle, it takes a new stream from the configured producer and
    sets the phase to [Running]; for a key with a live handle it changes
    nothing.  So a second call right after a first one changes nothing,
    and the two calls together take at most one stream. *)
Theorem InitOrSkip_starts_at_most_one_stream (key : string) (s : GeneratorFSM) :
  fsm_mutex s = Unlocked ->
  (map_len (payloads s) = 0 -> InitOrSkip key s = Returned tt s)
  /\ (Generators s !! key = None -> InitOrSkip key s = Returned tt s)
  /\ (forall g, Generators s !! key = Some g ->
      g_mutex g = Unlocked ->
      0 < map_len (payloads s) ->
      (forall f, gchan g = None -> generator s = Some f ->
         InitOrSkip key s =
           Returned tt
             (set_spawned (S (spawned s))
                (set_Generators
                   (<[key := mkGenerator Unlocked (positionPath g) (positionRaw g)
                               (currentPayloads g)
                               (Some (f (spawned s) (basePayloads s)))
                               (currentGeneratorValue g) Running]>
                      (Generators s)) s)))
      /\ (is_Some (gchan g) -> InitOrSkip key s = Returned tt s))
  /\ (forall s1, InitOrSkip key s = Returned tt s1 ->
      InitOrSkip key s1 = Returned tt s1
      /\ (spawned s <= spawned s1 <= S (spawned s))%nat).
Proof.
  intros Hmu. split; [|split; [|split]].
  - intros Hlen. rewrite InitOrSkip_eq by assumption.
    destruct (Generators s !! key); [|reflexivity].
    replace (0 <? map_len (payloads s)) with false by (symmetry; lia).
    reflexivity.
  - intros Hnone. rewrite InitOrSkip_eq, Hnone by assumption. reflexivity.
  - intros g Hg Hgm Hlen. rewrite InitOrSkip_eq, Hg by assumption.
    replace (0 <? map_len (payloads s)) with true by (symmetry; lia).
    rewrite decide_True by assumption. split.
    + intros f Hc Hf. rewrite Hc, Hf.
      unfold set_state, set_gchan. simpl. rewrite Hgm. reflexivity.
    + intros [c Hc]. rewrite Hc. reflexivity.
  - intros s1 H1. rewrite InitOrSkip_eq in H1 by assumption.
    destruct (Generators s !! key) as [g|] eqn:Hg.
    2:{ injection H1 as <-. split; [|lia].
        rewrite InitOrSkip_eq, Hg by assumption. reflexivity. }
    destruct (0 <? map_len (payloads s)) eqn:Hlen.
    2:{ injection H1 as <-. split; [|lia].
        rewrite InitOrSkip_eq, Hg, Hlen by assumption. reflexivity. }
    destruct (decide (g_mutex g = Unlocked)) as [Hgm|]; [|discriminate].
    destruct (gchan g) as [c|] eqn:Hc.
    { injection H1 as <-. split; [|lia].
      rewrite InitOrSkip_eq, Hg, Hlen, decide_True, Hc by assumption.
      reflexivity. }
    destruct (generator s) as [f|]; [|discriminate].
    injection H1 as <-. split; [|simpl; lia].
    rewrite InitOrSkip_eq by assumption. simpl.
    rewrite lookup_insert_eq, Hlen. simpl.
    rewrite decide_True by assumption. reflexivity.
Qed.

Lemma InitOrSkip_starts_at_most_one_stream_witness :
  InitOrSkip Sample.k Sample.streaming = Returned tt Sample.streaming
  /\ InitOrSkip Sample.k Sample.advanced = Returned tt Sample.advanced.
Proof.
  split.
  - destruct (InitOrSkip_starts_at_most_one_stream Sample.k Sample.streaming
                eq_refl) as (_ & _ & Hreg & _).
    destruct (Hreg (mkGenerator Unlocked 0 0 None (Some Sample.xy) None Running)
                eq_refl eq_refl) as [_ Hlive]; [vm_compute; reflexivity|].
    apply Hlive. simpl. eauto.
  - apply (InitOrSkip_starts_at_most_one_stream Sample.k Sample.advanced
             eq_refl).
    reflexivity.
Defined.

(** ** Invariants *)

Lemma all_generators_insert (Q : Generator -> Prop) (s : GeneratorFSM)
    (key : string) (g : Generator) :
  all_generators Q s -> Q g ->
  all_generators Q (set_Generators (<[key := g]> (Generators s)) s).
Proof.
  intros Hall Hg k g0. simpl. rewrite lookup_insert.
  case_decide as E.
  - intros [= <-]. exact Hg.
  - apply Hall.
Qed.

Lemma all_generators_delete (Q : Generator -> Prop) (s : GeneratorFSM)
    (key : string) :
  all_generators Q s ->
  all_generators Q (set_Generators (delete key (Generators s)) s).
Proof.
  intros Hall k g0. simpl. rewrite lookup_delete.
  case_decide as E; [discriminate | apply Hall].
Qed.

Lemma forget_Returned {St A} (m : M St A) (s s' : St) :
  forget m s = Returned tt s' -> exists a, m s = Returned a s'.
Proof.
  unfold forget, bind, ret. destruct (m s) as [a s0| |]; try discriminate.
  intros [= <-]. eauto.
Qed.

(** A property of the key states holds between any two calls as soon as a
    fresh key has it and each assignment the methods make keeps it. *)
Section InvariantRule.

Variables paths raws : list string.
Variable Q : Generator -> Prop.

Hypothesis Q_new : Q new_Generator.
Hypothesis Q_received : forall g v rest,
  Q g -> gchan g = Some (Sending v rest) ->
  Q (set_currentGeneratorValue v (set_gchan (Some rest) g)).
Hypothesis Q_closed : forall g,
  Q g -> Q (set_currentGeneratorValue None (set_state Done (set_gchan None g))).
Hypothesis Q_timed_out : forall g,
  Q g -> Q (set_state Done (set_gchan None g)).
Hypothesis Q_started : forall g c,
  Q g -> gchan g = None -> Q (set_state Running (set_gchan (Some c) g)).
Hypothesis Q_path : forall g,
  Q g -> positionPath g < len paths ->
  Q (set_positionPath (add (positionPath g) 1) g).
Hypothesis Q_raw : forall g,
  Q g -> positionRaw g < len raws -> gchan g = None ->
  Q (set_positionRaw (add (positionRaw g) 1) (set_state Done g)).

Lemma run_stable (c : call) (s s' : GeneratorFSM) :
  stable paths raws Q s -> run c s = Returned tt s' -> stable paths raws Q s'.
Proof.
  intros (Hmu & HP & HR & Hall) Hrun.
  assert (Hsame : stable paths raws Q s) by (repeat split; assumption).
  assert (Hins : forall key g, Q g ->
            stable paths raws Q
              (set_Generators (<[key := g]> (Generators s)) s)).
  { intros key g Hg. repeat split; try assumption.
    apply all_generators_insert; assumption. }
  destruct c as [key|key|key|key|key|key|key|key|key|key| |key]; simpl in Hrun.
  - (* Add *)
    rewrite Add_eq in Hrun by assumption. injection Hrun as <-.
    destruct (Generators s !! key); [assumption | apply Hins, Q_new].
  - (* Has *)
    apply forget_Returned in Hrun as [a Hrun].
    rewrite Has_eq in Hrun by assumption. injection Hrun as _ <-. assumption.
  - (* Delete *)
    rewrite Delete_eq in Hrun by assumption. injection Hrun as <-.
    repeat split; try assumption. apply all_generators_delete, Hall.
  - (* Reset *)
    rewrite Reset_eq in Hrun. discriminate.
  - (* InitOrSkip *)
    rewrite InitOrSkip_eq in Hrun by assumption.
    destruct (Generators s !! key) as [g|] eqn:Hg;
      [|injection Hrun as <-; assumption].
    destruct (0 <? map_len (payloads s));
      [|injection Hrun as <-; assumption].
    destruct (decide (g_mutex g = Unlocked)); [|discriminate].
    destruct (gchan g) eqn:Hc; [injection Hrun as <-; assumption|].
    destruct (generator s); [|discriminate].
    injection Hrun as <-.
    destruct (Hins key (set_state Running
                (set_gchan (Some (g0 (spawned s) (basePayloads s))) g)))
      as (? & ? & ? & ?); [apply Q_started; eauto|].
    repeat split; assumption.
  - (* ReadOne *)
    rewrite ReadOne_eq in Hrun by assumption.
    destruct (Generators s !! key) as [g|] eqn:Hg;
      [|injection Hrun as <-; assumption].
    destruct (gchan g) as [[v rest| |]|] eqn:Hc; simpl in Hrun.
    + injection Hrun as <-. apply Hins, Q_received; eauto.
    + destruct (decide _); [|discriminate].
      injection Hrun as <-. apply Hins, Q_closed; eauto.
    + destruct (decide _); [|discriminate].
      injection Hrun as <-. apply Hins, Q_timed_out; eauto.
    + destruct (decide _); [|discriminate].
      injection Hrun as <-. apply Hins, Q_timed_out; eauto.
  - (* Value *)
    apply forget_Returned in Hrun as [a Hrun].
    rewrite Value_eq in Hrun by assumption. injection Hrun as _ <-. assumption.
  - (* Next *)
    apply forget_Returned in Hrun as [a Hrun].
    rewrite Next_eq in Hrun by assumption. injection Hrun as _ <-. assumption.
  - (* Position *)
    apply forget_Returned in Hrun as [a Hrun].
    rewrite Position_eq in Hrun by assumption. injection Hrun as _ <-.
    assumption.
  - (* Current *)
    apply forget_Returned in Hrun as [a Hrun].
    rewrite Current_eq in Hrun by assumption.
    assert (Hidx : forall l i, @index GeneratorFSM l i s = Returned a s' -> s' = s).
    { unfold index, ret, panic. intros l i.
      destruct (_ && _); [|discriminate].
      destruct (l !! Z.to_nat i); [|discriminate].
      intros [= _ <-]. reflexivity. }
    destruct (Generators s !! key) as [g|].
    + destruct (_ && _); apply Hidx in Hrun; subst s'; assumption.
    + injection Hrun as _ <-. assumption.
  - (* Total *)
    apply forget_Returned in Hrun as [a Hrun].
    rewrite Total_eq in Hrun. injection Hrun as _ <-. assumption.
  - (* Increment *)
    rewrite Increment_eq in Hrun by assumption. injection Hrun as <-.
    destruct (Generators s !! key) as [g|] eqn:Hg; [|assumption].
    rewrite HP, HR.
    destruct (len paths >? 0) eqn:E1, (positionPath g <? len paths) eqn:E2;
      simpl;
      try (apply Hins, Q_path; [eauto | lia]);
      (destruct (len raws >? 0) eqn:E3, (positionRaw g <? len raws) eqn:E4;
       simpl; try assumption;
       (destruct (gchan g) eqn:Hc; [assumption|];
        apply Hins, Q_raw; [eauto | lia | assumption])).
Qed.

Lemma exec_stable (cs : list call) (s s' : GeneratorFSM) :
  stable paths raws Q s -> exec cs s = Returned tt s' -> stable paths raws Q s'.
Proof.
  revert s. induction cs as [|c cs IH]; intros s Hs Hexec; simpl in Hexec.
  - injection Hexec as <-. assumption.
  - unfold bind in Hexec.
    destruct (run c s) as [[] s1| |] eqn:Hrun; try discriminate.
    eapply IH; [|eassumption]. eapply run_stable; eassumption.
Qed.

Lemma state_after_stable (cs : list call) (s s' : GeneratorFSM) :
  stable paths raws Q s -> state_after cs s = Some s' -> stable paths raws Q s'.
Proof.
  unfold state_after. intros Hs H.
  destruct (exec cs s) as [[] s1| |] eqn:Hexec; try discriminate.
  injection H as <-. eapply exec_stable; eassumption.
Qed.

(** The last lines of [Reset] keep the property too, when zeroing the
    counters does. *)
Lemma Reset_positions_stable (key : string) (s s' : GeneratorFSM) :
  (forall g, Q g -> Q (set_positionRaw 0 (set_positionPath 0 g))) ->
  stable paths raws Q s -> Reset_positions key s = Returned tt s' ->
  stable paths raws Q s'.
Proof.
  intros Q_reset (Hmu & HP & HR & Hall).
  unfold Reset_positions, bind, lookup_generator, store, modify, ret.
  destruct (Generators s !! key) as [g|] eqn:Hg; intros [= <-].
  - repeat split; try assumption.
    apply all_generators_insert; eauto.
  - repeat split; assumption.
Qed.

End InvariantRule.

Lemma NewGeneratorFSM_stable (LoadPayloads : binding -> payload_lists)
    (sn pf cb : generator_func) (typ : generators_Type) (ps : binding)
    (paths raws : list string) (Q : Generator -> Prop) :
  stable paths raws Q (NewGeneratorFSM LoadPayloads sn pf cb typ ps paths raws).
Proof.
  unfold NewGeneratorFSM.
  destruct (0 <? map_len ps); repeat split; intros key g Hg;
    simpl in Hg; rewrite lookup_empty in Hg; discriminate.
Qed.

(** C9: in every state that a sequence of calls on a freshly built
    coordinator leaves, no registered key has its stream handle absent and
    its phase [Running]: a key in phase [Running] owns a live stream.  The
    final assignments of [Reset] keep this as well. *)
Theorem Running_only_with_live_stream (LoadPayloads : binding -> payload_lists)
    (sn pf cb : generator_func) (typ : generators_Type) (ps : binding)
    (paths raws : list string) (cs : list call) (s : GeneratorFSM) :
  state_after cs (NewGeneratorFSM LoadPayloads sn pf cb typ ps paths raws) = Some s ->
  (forall key g, Generators s !! key = Some g ->
     ~ (gchan g = None /\ state g = Running))
  /\ (forall key0 s', Reset_positions key0 s = Returned tt s' ->
      forall key g, Generators s' !! key = Some g ->
        ~ (gchan g = None /\ state g = Running)).
Proof.
  intros Hafter.
  assert (Hs : stable paths raws running_has_stream s).
  { eapply state_after_stable; [..| apply NewGeneratorFSM_stable | exact Hafter];
      unfold running_has_stream; simpl; intros; try discriminate; eauto. }
  assert (Hno : forall x, stable paths raws running_has_stream x ->
            forall key g, Generators x !! key = Some g ->
              ~ (gchan g = None /\ state g = Running)).
  { intros x (_ & _ & _ & Hall) key g Hg [Hc Hst].
    destruct (Hall key g Hg Hst) as [c Hc']. congruence. }
  split.
  - apply Hno, Hs.
  - intros key0 s' Hreset. apply Hno.
    eapply Reset_positions_stable; [|exact Hs|exact Hreset].
    unfold running_has_stream. simpl. auto.
Qed.

Lemma Running_only_with_live_stream_witness :
  ~ (gchan (mkGenerator Unlocked 0 0 None (Some Sample.xy) None Running) = None
     /\ state (mkGenerator Unlocked 0 0 None (Some Sample.xy) None Running)
        = Running).
Proof.
  apply (Running_only_with_live_stream Sample.LoadPayloads Sample.producer
           Sample.producer Sample.producer Sniper Sample.specs
           [] ["r"%string] [CallAdd Sample.k; CallInitOrSkip Sample.k]
           Sample.streaming eq_refl)
    with (key := Sample.k).
  reflexivity.
Defined.

(** C10: in every state that a sequence of calls on a freshly built
    coordinator leaves, the counters of every registered key stay within
    their lists, [0 <= pathPosition <= len(Paths)] and
    [0 <= rawPosition <= len(Raws)], so that [Position(key)] never exceeds
    [Total()].  The lengths are those of Go slices, which fit [int].  The
    final assignments of [Reset] keep the bounds as well. *)
Theorem positions_within_bounds (LoadPayloads : binding -> payload_lists)
    (sn pf cb : generator_func) (typ : generators_Type) (ps : binding)
    (paths raws : list string) (cs : list call) (s : GeneratorFSM) :
  len paths + len raws <= max_int ->
  state_after cs (NewGeneratorFSM LoadPayloads sn pf cb typ ps paths raws) = Some s ->
  (forall key g, Generators s !! key = Some g ->
     0 <= positionPath g <= len (Paths s)
     /\ 0 <= positionRaw g <= len (Raws s)
     /\ Position key s = Returned (positionPath g + positionRaw g) s
     /\ Total s = Returned (len (Paths s) + len (Raws s)) s
     /\ positionPath g + positionRaw g <= len (Paths s) + len (Raws s))
  /\ (forall key0 s', Reset_positions key0 s = Returned tt s' ->
      forall key g, Generators s' !! key = Some g ->
        0 <= positionPath g <= len (Paths s')
        /\ 0 <= positionRaw g <= len (Raws s')).
Proof.
  intros Hfit Hafter.
  pose proof (len_nonneg paths) as HP0. pose proof (len_nonneg raws) as HR0.
  assert (Hs : stable paths raws (within_bounds paths raws) s).
  { eapply state_after_stable; [..| apply NewGeneratorFSM_stable | exact Hafter];
      unfold within_bounds; simpl.
    - lia.
    - intros g v rest H _. exact H.
    - intros g H. exact H.
    - intros g H. exact H.
    - intros g c H _. exact H.
    - intros g [Hp Hr] Hlt. rewrite (add_one_below _ (len paths)) by lia. lia.
    - intros g [Hp Hr] Hlt _. rewrite (add_one_below _ (len raws)) by lia. lia. }
  split.
  - destruct Hs as (Hmu & HP & HR & Hall). intros key g Hg.
    destruct (Hall key g Hg) as [Hp Hr]. rewrite HP, HR.
    split; [exact Hp|]. split; [exact Hr|].
    rewrite Position_eq, Hg, Total_eq, HP, HR by assumption.
    rewrite !add_in_range by (unfold min_int; lia).
    repeat split; lia.
  - intros key0 s' Hreset.
    assert (Hs' : stable paths raws (within_bounds paths raws) s').
    { eapply Reset_positions_stable; [|exact Hs|exact Hreset].
      unfold within_bounds. simpl. lia. }
    destruct Hs' as (_ & HP & HR & Hall). rewrite HP, HR. exact Hall.
Qed.

Lemma positions_within_bounds_witness :
  Position Sample.k (Sample.after [CallIncrement Sample.k] Sample.advanced) =
    Returned 2 (Sample.after [CallIncrement Sample.k] Sample.advanced)
  /\ Total (Sample.after [CallIncrement Sample.k] Sample.advanced) =
     Returned 2 (Sample.after [CallIncrement Sample.k] Sample.advanced).
Proof.
  destruct (positions_within_bounds Sample.LoadPayloads Sample.producer
              Sample.producer Sample.producer Sniper None
              ["a"; "b"]%string []
              [CallAdd Sample.k; CallIncrement Sample.k; CallIncrement Sample.k]
              (Sample.after [CallIncrement Sample.k] Sample.advanced))
    as [Hreach _]; [vm_compute; discriminate | reflexivity |].
  destruct (Hreach Sample.k (mkGenerator Unlocked 2 0 None None None Init)
              eq_refl) as (_ & _ & Hpos & Htot & _).
  split; [exact Hpos | exact Htot].
Defined.

(** ** The configuration is fixed by the constructor *)

Lemma NewGeneratorFSM_producer_set (LoadPayloads : binding -> payload_lists)
    (sn pf cb : generator_func) (typ : generators_Type) (ps : binding)
    (paths raws : list string) :
  producer_set (NewGeneratorFSM LoadPayloads sn pf cb typ ps paths raws)
  /\ (0 < map_len ps ->
      generator (NewGeneratorFSM LoadPayloads sn pf cb typ ps paths raws) =
        Some match typ with
             | Sniper => sn
             | PitchFork => pf
             | ClusterBomb => cb
             end).
Proof.
  unfold producer_set, NewGeneratorFSM.
  destruct (0 <? map_len ps) eqn:E; simpl; split; intros H; try lia; eauto.
Qed.

Lemma run_keeps_configuration (c : call) (s s' : GeneratorFSM) :
  fsm_mutex s = Unlocked ->
  run c s = Returned tt s' ->
  payloads s' = payloads s /\ basePayloads s' = basePayloads s
  /\ generator s' = generator s.
Proof.
  intros Hmu Hrun.
  destruct c as [key|key|key|key|key|key|key|key|key|key| |key]; simpl in Hrun;
    try (apply forget_Returned in Hrun as [a Hrun]).
  - rewrite Add_eq in Hrun by assumption. injection Hrun as <-.
    destruct (Generators s !! key); auto.
  - rewrite Has_eq in Hrun by assumption. injection Hrun as _ <-. auto.
  - rewrite Delete_eq in Hrun by assumption. injection Hrun as <-. auto.
  - rewrite Reset_eq in Hrun. discriminate.
  - rewrite InitOrSkip_eq in Hrun by assumption.
    destruct (Generators s !! key) as [g|]; [|injection Hrun as <-; auto].
    destruct (0 <? map_len (payloads s)); [|injection Hrun as <-; auto].
    destruct (decide _); [|discriminate].
    destruct (gchan g); [injection Hrun as <-; auto|].
    destruct (generator s) eqn:Hgen; [|discriminate].
    injection Hrun as <-. simpl. auto.
  - rewrite ReadOne_eq in Hrun by assumption.
    destruct (Generators s !! key) as [g|]; [|injection Hrun as <-; auto].
    destruct (select_recv_or_timeout (gchan g));
      [injection Hrun as <-; auto| |];
      (destruct (decide _); [injection Hrun as <-; auto | discriminate]).
  - rewrite Value_eq in Hrun by assumption. injection Hrun as _ <-. auto.
  - rewrite Next_eq in Hrun by assumption. injection Hrun as _ <-. auto.
  - rewrite Position_eq in Hrun by assumption. injection Hrun as _ <-. auto.
  - rewrite Current_eq in Hrun by assumption.
    assert (Hidx : forall l i,
              @index GeneratorFSM l i s = Returned a s' -> s' = s).
    { unfold index, ret, panic. intros l i.
      destruct (_ && _); [|discriminate].
      destruct (l !! Z.to_nat i); [|discriminate].
      intros [= _ <-]. reflexivity. }
    destruct (Generators s !! key) as [g|].
    + destruct (_ && _); apply Hidx in Hrun; subst s'; auto.
    + injection Hrun as _ <-. auto.
  - rewrite Total_eq in Hrun. injection Hrun as _ <-. auto.
  - rewrite Increment_eq in Hrun by assumption. injection Hrun as <-.
    destruct (Generators s !! key) as [g|]; [|auto].
    destruct (_ && _); [auto|].
    destruct (_ && _); [|auto].
    destruct (gchan g); auto.
Qed.

(** Between two calls no lock is held and the producer is set. *)
Lemma ready_after_any_calls (LoadPayloads : binding -> payload_lists)
    (sn pf cb : generator_func) (typ : generators_Type) (ps : binding)
    (paths raws : list string) (cs : list call) (s : GeneratorFSM) :
  state_after cs (NewGeneratorFSM LoadPayloads sn pf cb typ ps paths raws) = Some s ->
  fsm_mutex s = Unlocked /\ all_generators key_unlocked s /\ producer_set s.
Proof.
  unfold state_after.
  destruct (exec cs _) as [[] s1| |] eqn:Hexec; try discriminate.
  intros [= <-].
  pose proof (NewGeneratorFSM_stable LoadPayloads sn pf cb typ ps paths raws
                key_unlocked) as Hst.
  pose proof (proj1 (NewGeneratorFSM_producer_set LoadPayloads sn pf cb typ ps
                       paths raws)) as Hps.
  revert Hexec Hst Hps.
  generalize (NewGeneratorFSM LoadPayloads sn pf cb typ ps paths raws).
  induction cs as [|c cs IH]; intros s0 Hexec Hst Hps; simpl in Hexec.
  - injection Hexec as <-. destruct Hst as (? & _ & _ & ?). auto.
  - unfold bind in Hexec.
    destruct (run c s0) as [[] s2| |] eqn:Hrun; try discriminate.
    apply (IH s2 Hexec).
    + eapply run_stable; [..|exact Hst|exact Hrun];
        unfold key_unlocked; simpl; auto.
    + destruct Hst as (Hmu & _).
      destruct (run_keeps_configuration c s0 s2 Hmu Hrun) as (Hp & _ & Hg).
      unfold producer_set. rewrite Hp, Hg. exact Hps.
Qed.

(** ** Termination *)

(** Every call but [Reset] and [Current] returns when no lock is held and
    the producer is set; [ReadOne] included, whether a binding arrives,
    the stream is closed or the timer fires. *)
Lemma other_calls_return (c : call) (s : GeneratorFSM) :
  fsm_mutex s = Unlocked ->
  all_generators key_unlocked s ->
  producer_set s ->
  (forall key, c <> CallReset key) ->
  (forall key, c <> CallCurrent key) ->
  exists s', run c s = Returned tt s'.
Proof.
  intros Hmu Hkeys Hprod HnR HnC.
  destruct c as [key|key|key|key|key|key|key|key|key|key| |key]; simpl.
  - rewrite Add_eq by assumption. eauto.
  - unfold forget, bind. rewrite Has_eq by assumption. unfold ret. eauto.
  - rewrite Delete_eq by assumption. eauto.
  - destruct (HnR key eq_refl).
  - rewrite InitOrSkip_eq by assumption.
    destruct (Generators s !! key) as [g|] eqn:Hg; [|eauto].
    destruct (0 <? map_len (payloads s)) eqn:Hlen; [|eauto].
    rewrite decide_True by (eapply Hkeys; eassumption).
    destruct (gchan g); [eauto|].
    destruct Hprod as [f Hf]; [lia|]. rewrite Hf. eauto.
  - rewrite ReadOne_eq by assumption.
    destruct (Generators s !! key) as [g|] eqn:Hg; [|eauto].
    destruct (select_recv_or_timeout (gchan g)); [eauto| |];
      rewrite decide_True by (eapply Hkeys; eassumption); eauto.
  - unfold forget, bind. rewrite Value_eq by assumption. unfold ret. eauto.
  - unfold forget, bind. rewrite Next_eq by assumption. unfold ret. eauto.
  - unfold forget, bind. rewrite Position_eq by assumption. unfold ret. eauto.
  - destruct (HnC key eq_refl).
  - unfold forget, bind. rewrite Total_eq. unfold ret. eauto.
  - rewrite Increment_eq by assumption. eauto.
Qed.

(** C1: the operations are expected to return, [Reset(key)] for every key
    in particular.  [Reset] does not: it takes the write lock of the
    coordinator and then calls [Has], which waits for the read lock of the
    same mutex, so the call is parked for ever, whatever the key and the
    state. *)
Theorem Reset_never_returns (key : string) (s : GeneratorFSM) :
  Reset key s = Blocked
  /\ state_after [CallReset key] s = None.
Proof.
  split.
  - apply Reset_eq.
  - unfold state_after, exec, bind. simpl. rewrite Reset_eq. reflexivity.
Qed.

(** C5: [Reset(key)] is meant to zero both counters of a registered key
    and to leave its phase, stream handle and latest binding alone.  Its
    last lines do exactly that, but the call is parked before it reaches
    them, so the counters keep their values. *)
Theorem Reset_blocks_before_zeroing (key : string) (s : GeneratorFSM)
    (g : Generator) :
  Generators s !! key = Some g ->
  Reset key s = Blocked
  /\ Reset_positions key s =
     Returned tt
       (set_Generators
          (<[key := mkGenerator (g_mutex g) 0 0 (currentPayloads g) (gchan g)
                      (currentGeneratorValue g) (state g)]>
             (Generators s)) s).
Proof.
  intros Hg. split.
  - apply Reset_eq.
  - unfold Reset_positions, bind, lookup_generator, store, modify, ret.
    rewrite Hg. reflexivity.
Qed.

Lemma Reset_blocks_before_zeroing_witness :
  Position Sample.k Sample.advanced = Returned 1 Sample.advanced
  /\ Reset Sample.k Sample.advanced = Blocked.
Proof.
  split.
  - reflexivity.
  - apply (Reset_blocks_before_zeroing Sample.k Sample.advanced
             (mkGenerator Unlocked 1 0 None None None Init)).
    reflexivity.
Defined.

(** After any calls that returned, every call but [Reset] and [Current]
    returns again. *)
Lemma calls_return_after_any_calls (LoadPayloads : binding -> payload_lists)
    (sn pf cb : generator_func) (typ : generators_Type) (ps : binding)
    (paths raws : list string) (cs : list call) (s : GeneratorFSM) (c : call) :
  state_after cs (NewGeneratorFSM LoadPayloads sn pf cb typ ps paths raws) = Some s ->
  (forall key, c <> CallReset key) ->
  (forall key, c <> CallCurrent key) ->
  exists s', run c s = Returned tt s'.
Proof.
  intros Hafter HnR HnC.
  destruct (ready_after_any_calls _ _ _ _ _ _ _ _ _ _ Hafter) as (Hmu & Hk & Hp).
  apply other_calls_return; assumption.
Qed.

(** ** The two scenarios of the specification *)

(** Two paths, no payloads: the walk over the static list. *)
Example static_walk :
  let s0 := Sample.after [CallAdd "k"] Sample.static_only in
  let s1 := Sample.after [CallIncrement "k"] s0 in
  let s2 := Sample.after [CallIncrement "k"] s1 in
  result (Next "k" s0) = Some true
  /\ result (Current "k" s0) = Some "a"%string
  /\ result (Current "k" s1) = Some "b"%string
  /\ result (Position "k" s1) = Some 1
  /\ result (Next "k" s2) = Some false
  /\ result (Position "k" s2) = Some 2
  /\ result (Total s2) = Some 2.
Proof. repeat split. Qed.

(** A sniper stream over ["x"; "y"]: two bindings, then the closure. *)
Example sniper_stream :
  let s1 := Sample.after [CallReadOne "k"] Sample.streaming in
  let s2 := Sample.after [CallReadOne "k"] s1 in
  let s3 := Sample.after [CallReadOne "k"] s2 in
  result (Value "k" s1) = Some (Some {[ "var"%string := IString "x" ]})
  /\ result (Value "k" s2) = Some (Some {[ "var"%string := IString "y" ]})
  /\ Generators s3 !! "k"%string =
     Some (mkGenerator Unlocked 0 0 None None None Done)
  /\ result (Next "k" s3) = Some false.
Proof. repeat split. Qed.

(** * Further properties of the methods *)

(** ** The effect of one call *)

Lemma run_step (c : call) (s s' : GeneratorFSM) :
  fsm_mutex s = Unlocked ->
  run c s = Returned tt s' ->
  step c s s' /\ fsm_mutex s' = Unlocked.
Proof.
  intros Hmu Hrun.
  destruct c as [key|key|key|key|key|key|key|key|key|key| |key]; simpl in Hrun;
    try (apply forget_Returned in Hrun as [a Hrun]).
  - rewrite Add_eq in Hrun by assumption. injection Hrun as <-.
    destruct (Generators s !! key) eqn:Hg; split; auto; constructor; auto.
  - rewrite Has_eq in Hrun by assumption. injection Hrun as _ <-.
    split; [constructor | assumption].
  - rewrite Delete_eq in Hrun by assumption. injection Hrun as <-.
    split; [constructor | assumption].
  - rewrite Reset_eq in Hrun. discriminate.
  - rewrite InitOrSkip_eq in Hrun by assumption.
    destruct (Generators s !! key) as [g|] eqn:Hg;
      [|injection Hrun as <-; split; [constructor | assumption]].
    destruct (0 <? map_len (payloads s)) eqn:Hlen;
      [|injection Hrun as <-; split; [constructor | assumption]].
    destruct (decide _); [|discriminate].
    destruct (gchan g) eqn:Hc;
      [injection Hrun as <-; split; [constructor | assumption]|].
    destruct (generator s) as [f|] eqn:Hgen; [|discriminate].
    injection Hrun as <-. split; [|assumption].
    eapply step_start; eauto. lia.
  - rewrite ReadOne_eq in Hrun by assumption.
    destruct (Generators s !! key) as [g|] eqn:Hg;
      [|injection Hrun as <-; split; [constructor | assumption]].
    destruct (gchan g) as [[v rest| |]|] eqn:Hc; simpl in Hrun.
    + injection Hrun as <-. split; [|assumption].
      eapply step_received; eauto.
    + destruct (decide _); [|discriminate]. injection Hrun as <-.
      split; [|assumption]. eapply step_closed; eauto.
    + destruct (decide _); [|discriminate]. injection Hrun as <-.
      split; [|assumption]. eapply step_timer; eauto.
    + destruct (decide _); [|discriminate]. injection Hrun as <-.
      split; [|assumption]. eapply step_timer; eauto.
  - rewrite Value_eq in Hrun by assumption. injection Hrun as _ <-.
    split; [constructor | assumption].
  - rewrite Next_eq in Hrun by assumption. injection Hrun as _ <-.
    split; [constructor | assumption].
  - rewrite Position_eq in Hrun by assumption. injection Hrun as _ <-.
    split; [constructor | assumption].
  - rewrite Current_eq in Hrun by assumption.
    assert (Hidx : forall l i,
              @index GeneratorFSM l i s = Returned a s' -> s' = s).
    { unfold index, ret, panic. intros l i.
      destruct (_ && _); [|discriminate].
      destruct (l !! Z.to_nat i); [|discriminate].
      intros [= _ <-]. reflexivity. }
    destruct (Generators s !! key) as [g|].
    + destruct (_ && _); apply Hidx in Hrun; subst s';
        (split; [constructor | assumption]).
    + injection Hrun as _ <-. split; [constructor | assumption].
  - rewrite Total_eq in Hrun. injection Hrun as _ <-.
    split; [constructor | assumption].
  - rewrite Increment_eq in Hrun by assumption. injection Hrun as <-.
    destruct (Generators s !! key) as [g|] eqn:Hg;
      [|split; [constructor | assumption]].
    destruct (len (Paths s) >? 0) eqn:E1,
             (positionPath g <? len (Paths s)) eqn:E2; simpl;
      try (split; [eapply step_path; eauto; lia | assumption]);
      (destruct (len (Raws s) >? 0) eqn:E3,
                (positionRaw g <? len (Raws s)) eqn:E4; simpl;
       try (split; [constructor | assumption]);
       (destruct (gchan g) eqn:Hc; [split; [constructor | assumption]|];
        split; [eapply step_raw; eauto; lia | assumption])).
Qed.

(** A property that every assignment keeps holds after any calls. *)
Lemma state_after_invariant (P : GeneratorFSM -> Prop) (cs : list call)
    (s0 s : GeneratorFSM) :
  (forall c x y, P x -> step c x y -> P y) ->
  fsm_mutex s0 = Unlocked ->
  P s0 ->
  state_after cs s0 = Some s ->
  P s /\ fsm_mutex s = Unlocked.
Proof.
  intros Hstep. unfold state_after.
  destruct (exec cs s0) as [[] s1| |] eqn:Hexec; try discriminate.
  intros Hmu HP [= <-]. revert s0 Hexec Hmu HP.
  induction cs as [|c cs IH]; intros s0 Hexec Hmu HP; simpl in Hexec.
  - injection Hexec as <-. auto.
  - unfold bind in Hexec.
    destruct (run c s0) as [[] s2| |] eqn:Hrun; try discriminate.
    destruct (run_step c s0 s2 Hmu Hrun) as [Hst Hmu2].
    apply (IH s2 Hexec Hmu2). eapply Hstep; eassumption.
Qed.

Lemma NewGeneratorFSM_unlocked (LoadPayloads : binding -> payload_lists)
    (sn pf cb : generator_func) (typ : generators_Type) (ps : binding)
    (paths raws : list string) :
  fsm_mutex (NewGeneratorFSM LoadPayloads sn pf cb typ ps paths raws) = Unlocked.
Proof.
  unfold NewGeneratorFSM. destruct (0 <? map_len ps); reflexivity.
Qed.

Lemma state_after_app (cs1 cs2 : list call) (s : GeneratorFSM) :
  state_after (cs1 ++ cs2) s =
    match state_after cs1 s with
    | Some s1 => state_after cs2 s1
    | None => None
    end.
Proof.
  unfold state_after. revert s.
  induction cs1 as [|c cs1 IH]; intros s; simpl; [reflexivity|].
  unfold bind. destruct (run c s) as [[] s1| |]; [apply IH | reflexivity..].
Qed.

Lemma state_after_one (c : call) (s s' : GeneratorFSM) :
  run c s = Returned tt s' -> state_after [c] s = Some s'.
Proof.
  unfold state_after. simpl. unfold bind. intros ->. reflexivity.
Qed.

(** ** Registration and removal *)

(** X1: after [Add(key)] the key is registered; after [Delete(key)] it is
    not, and every query answers as for a key that was never added: [Has]
    false, [Value] nil, [Position] 0, [Next] false, [Current] empty. *)
Theorem Has_follows_Add_and_Delete (key : string) (s : GeneratorFSM) :
  fsm_mutex s = Unlocked ->
  (exists s1, Add key s = Returned tt s1 /\ Has key s1 = Returned true s1)
  /\ (exists s2, Delete key s = Returned tt s2
        /\ Has key s2 = Returned false s2
        /\ Value key s2 = Returned None s2
        /\ Position key s2 = Returned 0 s2
        /\ Next key s2 = Returned false s2
        /\ Current key s2 = Returned ""%string s2).
Proof.
  intros Hmu. split.
  - destruct (run_step (CallAdd key) s _ Hmu (Add_eq key s Hmu)) as [_ Hmu1].
    eexists. split; [apply Add_eq, Hmu|].
    rewrite Has_eq by exact Hmu1.
    destruct (Generators s !! key) eqn:Hg; simpl.
    + rewrite Hg. reflexivity.
    + rewrite lookup_insert_eq. reflexivity.
  - exists (set_Generators (delete key (Generators s)) s).
    assert (Hmu2 : fsm_mutex (set_Generators (delete key (Generators s)) s)
                   = Unlocked) by exact Hmu.
    split; [apply Delete_eq, Hmu|].
    rewrite Has_eq, Value_eq, Position_eq, Next_eq, Current_eq by exact Hmu2.
    simpl. rewrite lookup_delete_eq. repeat split.
Qed.

Lemma Has_follows_Add_and_Delete_witness :
  (exists s1, Add Sample.k Sample.advanced = Returned tt s1
              /\ Has Sample.k s1 = Returned true s1)
  /\ (exists s2, Delete Sample.k Sample.advanced = Returned tt s2
        /\ Has Sample.k s2 = Returned false s2
        /\ Value Sample.k s2 = Returned None s2
        /\ Position Sample.k s2 = Returned 0 s2
        /\ Next Sample.k s2 = Returned false s2
        /\ Current Sample.k s2 = Returned ""%string s2).
Proof.
  apply (Has_follows_Add_and_Delete Sample.k Sample.advanced). reflexivity.
Defined.

(** X2: [Delete(key)] followed by [Add(key)] leaves the key as a fresh one,
    whatever it was before: counters zero, phase [Init], no stream handle
    and no latest binding; the other keys and the configuration are
    untouched. *)
Theorem Delete_then_Add_starts_afresh (key : string) (s : GeneratorFSM) :
  fsm_mutex s = Unlocked ->
  state_after [CallDelete key; CallAdd key] s =
    Some (update_key key (mkGenerator Unlocked 0 0 None None None Init) s).
Proof.
  intros Hmu. unfold state_after, exec, run, bind.
  rewrite Delete_eq by exact Hmu.
  rewrite Add_eq by exact Hmu. simpl.
  rewrite lookup_delete_eq. unfold update_key, set_Generators. simpl.
  rewrite insert_delete_eq. reflexivity.
Qed.

Lemma Delete_then_Add_starts_afresh_witness :
  state_after [CallDelete Sample.k; CallAdd Sample.k] Sample.streaming =
    Some (update_key Sample.k (mkGenerator Unlocked 0 0 None None None Init)
            Sample.streaming).
Proof.
  apply (Delete_then_Add_starts_afresh Sample.k Sample.streaming). reflexivity.
Defined.

Lemma step_other_keys (c : call) (s s' : GeneratorFSM) (k : string) :
  step c s s' -> target c <> Some k ->
  Generators s' !! k = Generators s !! k.
Proof.
  intros Hstep Hk.
  destruct Hstep; simpl in *; try reflexivity;
    try (rewrite lookup_insert_ne by congruence; reflexivity).
  rewrite lookup_delete_ne by congruence. reflexivity.
Qed.

(** X3: a call about one key never touches another key: whatever the
    method, the state of every key other than its argument is the same
    after the call as before. *)
Theorem calls_leave_other_keys_alone (c : call) (s s' : GeneratorFSM)
    (k : string) :
  fsm_mutex s = Unlocked ->
  run c s = Returned tt s' ->
  target c <> Some k ->
  Generators s' !! k = Generators s !! k.
Proof.
  intros Hmu Hrun Hk.
  destruct (run_step c s s' Hmu Hrun) as [Hstep _].
  eapply step_other_keys; eassumption.
Qed.

Lemma calls_leave_other_keys_alone_witness :
  Generators (Sample.after [CallDelete "other"] Sample.streaming) !! Sample.k =
    Generators Sample.streaming !! Sample.k.
Proof.
  apply (calls_leave_other_keys_alone (CallDelete "other") Sample.streaming
           (Sample.after [CallDelete "other"] Sample.streaming) Sample.k).
  - reflexivity.
  - reflexivity.
  - simpl. discriminate.
Defined.

Lemma step_dom (c : call) (s s' : GeneratorFSM) :
  step c s s' ->
  (forall key, c <> CallAdd key) ->
  (forall key, c <> CallDelete key) ->
  dom (Generators s') = dom (Generators s).
Proof.
  intros Hstep HnA HnD.
  destruct Hstep; simpl; try reflexivity;
    try (apply dom_insert_lookup_L; eauto).
  - destruct (HnA key eq_refl).
  - destruct (HnD key eq_refl).
Qed.

(** X4: only [Add] registers a key and only [Delete] removes one: every
    other method, the mutators [InitOrSkip], [ReadOne] and [Increment]
    included, returns with the same set of registered keys. *)
Theorem only_Add_and_Delete_change_the_keys (c : call) (s s' : GeneratorFSM) :
  fsm_mutex s = Unlocked ->
  run c s = Returned tt s' ->
  (forall key, c <> CallAdd key) ->
  (forall key, c <> CallDelete key) ->
  dom (Generators s') = dom (Generators s).
Proof.
  intros Hmu Hrun HnA HnD.
  destruct (run_step c s s' Hmu Hrun) as [Hstep _].
  apply (step_dom c); assumption.
Qed.

Lemma only_Add_and_Delete_change_the_keys_witness :
  dom (Generators (Sample.after [CallReadOne "other"] Sample.streaming)) =
    dom (Generators Sample.streaming).
Proof.
  apply (only_Add_and_Delete_change_the_keys (CallReadOne "other")
           Sample.streaming).
  - reflexivity.
  - reflexivity.
  - discriminate.
  - discriminate.
Defined.

(** ** What no call changes *)

(** X5: no method writes to the configuration: after any calls the path
    list, the raw list, the payload specifications, the loaded payload
    lists and the producer are the ones the coordinator started with, so
    [Total()] and [hasPayloads()] keep their values. *)
Theorem configuration_is_fixed (cs : list call) (s0 s : GeneratorFSM) :
  fsm_mutex s0 = Unlocked ->
  state_after cs s0 = Some s ->
  Paths s = Paths s0 /\ Raws s = Raws s0 /\ payloads s = payloads s0
  /\ basePayloads s = basePayloads s0 /\ generator s = generator s0
  /\ result (Total s) = result (Total s0)
  /\ hasPayloads s = hasPayloads s0.
Proof.
  intros Hmu Hafter.
  destruct (state_after_invariant
              (fun x => Paths x = Paths s0 /\ Raws x = Raws s0
                        /\ payloads x = payloads s0
                        /\ basePayloads x = basePayloads s0
                        /\ generator x = generator s0)
              cs s0 s) as [(HP & HR & Hp & Hb & Hg) _]; auto.
  { intros c x y Hx Hstep. destruct Hstep; simpl; exact Hx. }
  repeat split; try assumption.
  - simpl. rewrite HP, HR. reflexivity.
  - unfold hasPayloads. rewrite Hb. reflexivity.
Qed.

Lemma configuration_is_fixed_witness :
  result (Total (Sample.after [CallIncrement Sample.k] Sample.advanced)) =
    result (Total Sample.static_only).
Proof.
  apply (configuration_is_fixed
           [CallAdd Sample.k; CallIncrement Sample.k; CallIncrement Sample.k]
           Sample.static_only
           (Sample.after [CallIncrement Sample.k] Sample.advanced));
    reflexivity.
Defined.

Lemma RUnlock_RLock (m m1 m2 : RWMutex) :
  RLock m = Some m1 -> RUnlock m1 = Some m2 -> m2 = m.
Proof.
  destruct m as [|n|]; simpl; intros [= <-]; simpl.
  - intros [= <-]. reflexivity.
  - destruct (Pos.succ n) as [p|p|] eqn:E; intros [= <-].
    + rewrite <- E, Pos.pred_succ. reflexivity.
    + rewrite <- E, Pos.pred_succ. reflexivity.
    + destruct n; discriminate.
Qed.

(** A body that leaves the state alone, run under the read lock. *)
Lemma with_RLock_pure {A} (body : M GeneratorFSM A) (s s' : GeneratorFSM) (a : A) :
  (forall x b y, body x = Returned b y -> y = x) ->
  with_RLock body s = Returned a s' -> s' = s.
Proof.
  intros Hbody. unfold with_RLock.
  destruct (RLock (mutex s)) as [m1|] eqn:E1; [|discriminate].
  destruct (body (set_mutex m1 s)) as [b y| |] eqn:E2; try discriminate.
  apply Hbody in E2. subst y.
  destruct (RUnlock (mutex (set_mutex m1 s))) as [m2|] eqn:E3; [|discriminate].
  intros [= _ <-]. simpl in E3.
  rewrite (RUnlock_RLock _ _ _ E1 E3). destruct s; reflexivity.
Qed.

(** X6: the queries [Has], [Value], [Next], [Position], [Current] and
    [Total] only read: a query that returns leaves the coordinator exactly
    as it found it, the read locks that other callers hold included.  In
    particular a query never registers the key it is asked about. *)
Theorem queries_change_nothing (c : call) (s s' : GeneratorFSM) :
  is_query c = true ->
  run c s = Returned tt s' ->
  s' = s.
Proof.
  intros Hq Hrun.
  assert (Hidx : forall l i x b y,
            @index GeneratorFSM l i x = Returned b y -> y = x).
  { unfold index, ret, panic. intros l i x b y.
    destruct (_ && _); [|discriminate].
    destruct (l !! Z.to_nat i); [|discriminate].
    intros [= _ <-]. reflexivity. }
  destruct c as [key|key|key|key|key|key|key|key|key|key| |key];
    try discriminate Hq; simpl in Hrun;
    apply forget_Returned in Hrun as [a Hrun].
  - eapply with_RLock_pure; [|exact Hrun].
    unfold bind, lookup_generator, ret. intros x b y.
    destruct (Generators x !! key); intros [= _ <-]; reflexivity.
  - eapply with_RLock_pure; [|exact Hrun].
    unfold bind, lookup_generator, ret. intros x b y.
    destruct (Generators x !! key); intros [= _ <-]; reflexivity.
  - eapply with_RLock_pure; [|exact Hrun].
    unfold bind, lookup_generator, get, ret. intros x b y.
    destruct (Generators x !! key); [|intros [= _ <-]; reflexivity].
    destruct (_ && _); [intros [= _ <-]; reflexivity|].
    destruct (_ >=? _); intros [= _ <-]; reflexivity.
  - eapply with_RLock_pure; [|exact Hrun].
    unfold bind, lookup_generator, ret. intros x b y.
    destruct (Generators x !! key); intros [= _ <-]; reflexivity.
  - eapply with_RLock_pure; [|exact Hrun].
    unfold bind, lookup_generator, get, ret. intros x b y.
    destruct (Generators x !! key); [|intros [= _ <-]; reflexivity].
    destruct (_ && _); apply Hidx.
  - injection Hrun as _ <-. reflexivity.
Qed.

Lemma queries_change_nothing_witness :
  Sample.after [CallNext Sample.k] Sample.streaming = Sample.streaming.
Proof.
  apply (queries_change_nothing (CallNext Sample.k) Sample.streaming);
    reflexivity.
Defined.



(** X15: each field of a key has its writers.  For a key that stays
    registered, only [ReadOne] changes the latest binding, only
    [Increment] changes the counters, nothing changes [currentPayloads],
    and a call that is not [InitOrSkip], [ReadOne] or [Increment] on that
    key leaves the whole state of the key as it was. *)
Theorem fields_have_their_writers (c : call) (s s' : GeneratorFSM)
    (key : string) (g g' : Generator) :
  fsm_mutex s = Unlocked ->
  run c s = Returned tt s' ->
  Generators s !! key = Some g ->
  Generators s' !! key = Some g' ->
  (c <> CallReadOne key -> currentGeneratorValue g' = currentGeneratorValue g)
  /\ (c <> CallIncrement key ->
      positionPath g' = positionPath g /\ positionRaw g' = positionRaw g)
  /\ (c <> CallInitOrSkip key -> c <> CallReadOne key ->
      c <> CallIncrement key -> g' = g)
  /\ currentPayloads g' = currentPayloads g.
Proof.
  intros Hmu Hrun Hg Hg'.
  destruct (run_step c s s' Hmu Hrun) as [Hstep _].
  assert (Hupd : forall k h,
            Generators (update_key k h s) !! key = Some g' ->
            (k = key /\ g' = h) \/ (k <> key /\ g' = g)).
  { intros k h. simpl. destruct (decide (k = key)) as [->|Hk].
    - rewrite lookup_insert_eq. intros [= <-]. auto.
    - rewrite lookup_insert_ne by exact Hk. right. split; congruence. }
  destruct Hstep as [c s|k s Hn|k s|k s h f Hh Hp Hc Hf|k s h v rest Hh Hc
                    |k s h Hh Hc|k s h Hh Hc|k s h Hh Hlt|k s h Hh Hlt Hc];
    try (apply Hupd in Hg' as [[-> ->]|[Hk ->]];
         [assert (h = g) by congruence; subst h;
          repeat split; simpl; auto; congruence
         |repeat split; auto]).
  - assert (g' = g) by congruence. subst g'. repeat split; auto.
  - apply Hupd in Hg' as [[-> ->]|[Hk ->]]; [congruence|].
    repeat split; auto.
  - simpl in Hg'. destruct (decide (k = key)) as [->|Hk].
    + rewrite lookup_delete_eq in Hg'. discriminate.
    + rewrite lookup_delete_ne in Hg' by exact Hk.
      assert (g' = g) by congruence. subst g'. repeat split; auto.
Qed.

Lemma fields_have_their_writers_witness :
  positionPath (mkGenerator Unlocked 0 0 None (Some Sample.xy) None Running) = 0
  /\ positionRaw (mkGenerator Unlocked 0 0 None (Some Sample.xy) None Running) = 0.
Proof.
  destruct (fields_have_their_writers (CallInitOrSkip Sample.k)
              (Sample.after [CallAdd Sample.k] Sample.with_payloads)
              Sample.streaming Sample.k
              (mkGenerator Unlocked 0 0 None None None Init)
              (mkGenerator Unlocked 0 0 None (Some Sample.xy) None Running)
              eq_refl eq_refl eq_refl eq_refl) as (_ & Hpos & _).
  apply Hpos. discriminate.
Defined.

(** ** Coordinators without payloads *)

(** X7: a coordinator built with no payload specification never owns a
    stream: after any calls no producer has been invoked, no key has a
    stream handle, a latest binding or the phase [Running], [InitOrSkip]
    does nothing, and [Next] depends on the counters alone. *)
Theorem without_payloads_no_stream (LoadPayloads : binding -> payload_lists)
    (sn pf cb : generator_func) (typ : generators_Type) (ps : binding)
    (paths raws : list string) (cs : list call) (s : GeneratorFSM) :
  map_len ps = 0 ->
  state_after cs (NewGeneratorFSM LoadPayloads sn pf cb typ ps paths raws) = Some s ->
  spawned s = 0%nat
  /\ hasPayloads s = false
  /\ (forall key g, Generators s !! key = Some g ->
        gchan g = None /\ currentGeneratorValue g = None /\ state g <> Running)
  /\ (forall key, InitOrSkip key s = Returned tt s)
  /\ (forall key g, Generators s !! key = Some g ->
        (Next key s = Returned true s <->
         add (positionPath g) (positionRaw g)
           < add (len (Paths s)) (len (Raws s)))).
Proof.
  intros Hlen Hafter.
  set (quiet := fun g : Generator =>
         gchan g = None /\ currentGeneratorValue g = None /\ state g <> Running).
  destruct (state_after_invariant
              (fun x => map_len (payloads x) = 0 /\ basePayloads x = None
                        /\ spawned x = 0%nat /\ all_generators quiet x)
              cs (NewGeneratorFSM LoadPayloads sn pf cb typ ps paths raws) s)
    as [(Hp & Hb & Hsp & Hall) Hmu];
    [ | apply NewGeneratorFSM_unlocked | | exact Hafter | ].
  - intros c x y (Hp & Hb & Hsp & Hall) Hstep.
    destruct Hstep as [c s0|k s0 Hn|k s0|k s0 h f Hh Hpos Hc Hf
                      |k s0 h v rest Hh Hc|k s0 h Hh Hc|k s0 h Hh Hc
                      |k s0 h Hh Hlt|k s0 h Hh Hlt Hc]; simpl;
      try (split; [exact Hp|]; split; [exact Hb|]; split; [exact Hsp|]).
    + exact Hall.
    + apply all_generators_insert; [exact Hall|].
      repeat split; discriminate.
    + apply all_generators_delete, Hall.
    + lia.
    + destruct (Hall k h Hh) as (Hc' & _). congruence.
    + destruct (Hall k h Hh) as (Hc' & _). congruence.
    + apply all_generators_insert; [exact Hall|].
      destruct (Hall k h Hh) as (_ & Hv & _).
      repeat split; simpl; auto; discriminate.
    + apply all_generators_insert; [exact Hall|]. apply (Hall k h Hh).
    + apply all_generators_insert; [exact Hall|].
      destruct (Hall k h Hh) as (_ & Hv & _).
      repeat split; simpl; auto; discriminate.
  - unfold NewGeneratorFSM.
    replace (0 <? map_len ps) with false by (symmetry; lia). simpl.
    split; [exact Hlen|]. split; [reflexivity|]. split; [reflexivity|].
    intros key g Hg. simpl in Hg. rewrite lookup_empty in Hg. discriminate.
  - assert (Hhp : hasPayloads s = false).
    { unfold hasPayloads. rewrite Hb. reflexivity. }
    split; [exact Hsp|]. split; [exact Hhp|]. split; [exact Hall|]. split.
    + intros key. rewrite InitOrSkip_eq by exact Hmu.
      destruct (Generators s !! key); [|reflexivity].
      replace (0 <? map_len (payloads s)) with false by (symmetry; lia).
      reflexivity.
    + intros key g Hg. rewrite Next_eq, Hg, Hhp by exact Hmu. simpl. split.
      * destruct (_ >=? _) eqn:E; simpl; [discriminate | intros _; lia].
      * intros Hlt.
        replace (_ >=? _) with false by (symmetry; lia). reflexivity.
Qed.

Lemma without_payloads_no_stream_witness :
  InitOrSkip Sample.k Sample.advanced = Returned tt Sample.advanced
  /\ spawned Sample.advanced = 0%nat.
Proof.
  destruct (without_payloads_no_stream Sample.LoadPayloads Sample.producer
              Sample.producer Sample.producer Sniper None
              ["a"; "b"]%string []
              [CallAdd Sample.k; CallIncrement Sample.k] Sample.advanced
              eq_refl eq_refl) as (Hsp & _ & _ & Hinit & _).
  split; [apply Hinit | exact Hsp].
Defined.

(** ** The walk over the static lists *)

Lemma NewGeneratorFSM_fields (LoadPayloads : binding -> payload_lists)
    (sn pf cb : generator_func) (typ : generators_Type) (ps : binding)
    (paths raws : list string) :
  let s := NewGeneratorFSM LoadPayloads sn pf cb typ ps paths raws in
  Generators s = ∅ /\ Paths s = paths /\ Raws s = raws /\ payloads s = ps
  /\ spawned s = 0%nat.
Proof.
  unfold NewGeneratorFSM. destruct (0 <? map_len ps); repeat split.
Qed.

(** The key state after [Add] and [n] calls of [Increment], with no other
    call in between. *)
Lemma static_walk_state (s0 : GeneratorFSM) (key : string) (n : nat) :
  fsm_mutex s0 = Unlocked ->
  Generators s0 !! key = None ->
  len (Paths s0) <= max_int ->
  len (Raws s0) <= max_int ->
  exists s g,
    state_after (CallAdd key :: replicate n (CallIncrement key)) s0 = Some s
    /\ fsm_mutex s = Unlocked
    /\ Paths s = Paths s0 /\ Raws s = Raws s0
    /\ basePayloads s = basePayloads s0
    /\ Generators s !! key = Some g
    /\ positionPath g = Z.min (Z.of_nat n) (len (Paths s0))
    /\ positionRaw g =
       Z.min (Z.max 0 (Z.of_nat n - len (Paths s0))) (len (Raws s0))
    /\ gchan g = None
    /\ state g = (if 0 <? positionRaw g then Done else Init).
Proof.
  intros Hmu Hnone HP HR.
  pose proof (len_nonneg (Paths s0)) as HP0.
  pose proof (len_nonneg (Raws s0)) as HR0.
  induction n as [|n IH].
  - exists (update_key key new_Generator s0), new_Generator.
    split.
    { apply state_after_one. simpl. rewrite Add_eq, Hnone by exact Hmu.
      reflexivity. }
    simpl. rewrite lookup_insert_eq.
    repeat split; try assumption; simpl; lia.
  - destruct IH as (s & g & Hafter & Hmus & HPs & HRs & Hb & Hg & Hpp & Hpr
                    & Hc & Hst).
    rewrite replicate_S_end, app_comm_cons, state_after_app, Hafter.
    rewrite Nat2Z.inj_succ.
    assert (Hrun : state_after [CallIncrement key] s
                   = Some match Generators s !! key with
                          | None => s
                          | Some g =>
                              if (len (Paths s) >? 0)
                                 && (positionPath g <? len (Paths s))
                              then update_key key
                                     (set_positionPath (add (positionPath g) 1) g) s
                              else if (len (Raws s) >? 0)
                                      && (positionRaw g <? len (Raws s))
                              then match gchan g with
                                   | None =>
                                       update_key key
                                         (set_positionRaw (add (positionRaw g) 1)
                                            (set_state Done g)) s
                                   | Some _ => s
                                   end
                              else s
                          end).
    { apply state_after_one. simpl. rewrite Increment_eq by exact Hmus.
      reflexivity. }
    rewrite Hrun, Hg, HPs, HRs, Hc. clear Hrun.
    destruct (Z_lt_dec (Z.of_nat n) (len (Paths s0))) as [HA|HB].
    { (* a path is left *)
      replace (len (Paths s0) >? 0) with true by (symmetry; lia).
      replace (positionPath g <? len (Paths s0)) with true by (symmetry; lia).
      simpl. eexists _, _. split; [reflexivity|]. simpl.
      rewrite lookup_insert_eq.
      rewrite (add_one_below _ (len (Paths s0))) by lia.
      repeat split; try assumption; try reflexivity; simpl; try lia. }
    replace (positionPath g <? len (Paths s0)) with false by (symmetry; lia).
    rewrite andb_false_r.
    destruct (Z_lt_dec (Z.of_nat n - len (Paths s0)) (len (Raws s0)))
      as [HB1|HB2].
    { (* a raw request is left *)
      replace (len (Raws s0) >? 0) with true by (symmetry; lia).
      replace (positionRaw g <? len (Raws s0)) with true by (symmetry; lia).
      simpl. eexists _, _. split; [reflexivity|]. simpl.
      rewrite lookup_insert_eq.
      rewrite (add_one_below _ (len (Raws s0))) by lia.
      repeat split; try assumption; try reflexivity; simpl; try lia.
      replace (0 <? positionRaw g + 1) with true by (symmetry; lia).
      reflexivity. }
    (* both lists are exhausted *)
    replace (positionRaw g <? len (Raws s0)) with false by (symmetry; lia).
    rewrite andb_false_r.
    exists s, g. split; [reflexivity|].
    repeat split; try assumption; lia.
Qed.

(** X8: on a freshly built coordinator, [Add(key)] followed by [n] calls
    of [Increment(key)] walks the path list first and the raw list next and
    then stops: [pathPosition] is [min n len(Paths)], [rawPosition] is what
    is left of [n], capped by [len(Raws)], and [Position(key)] is
    [min n Total()].  When no payload list is loaded, [Next(key)] is true
    exactly while [n < Total()]. *)
Theorem Increment_walks_paths_then_raws (LoadPayloads : binding -> payload_lists)
    (sn pf cb : generator_func) (typ : generators_Type) (ps : binding)
    (paths raws : list string) (key : string) (n : nat) :
  len paths + len raws <= max_int ->
  exists s g,
    state_after (CallAdd key :: replicate n (CallIncrement key))
      (NewGeneratorFSM LoadPayloads sn pf cb typ ps paths raws) = Some s
    /\ Generators s !! key = Some g
    /\ positionPath g = Z.min (Z.of_nat n) (len paths)
    /\ positionRaw g = Z.min (Z.max 0 (Z.of_nat n - len paths)) (len raws)
    /\ Position key s = Returned (Z.min (Z.of_nat n) (len paths + len raws)) s
    /\ (hasPayloads (NewGeneratorFSM LoadPayloads sn pf cb typ ps paths raws)
          = false ->
        Next key s = Returned (Z.of_nat n <? len paths + len raws) s).
Proof.
  intros Hfit.
  pose proof (len_nonneg paths) as HP0. pose proof (len_nonneg raws) as HR0.
  destruct (NewGeneratorFSM_fields LoadPayloads sn pf cb typ ps paths raws)
    as (Hgs & HP & HR & _).
  destruct (static_walk_state
              (NewGeneratorFSM LoadPayloads sn pf cb typ ps paths raws) key n)
    as (s & g & Hafter & Hmu & HPs & HRs & Hb & Hg & Hpp & Hpr & Hc & Hst).
  { apply NewGeneratorFSM_unlocked. }
  { rewrite Hgs. apply lookup_empty. }
  { rewrite HP. lia. }
  { rewrite HR. lia. }
  rewrite HP in *. rewrite HR in *.
  assert (Hsum : add (positionPath g) (positionRaw g)
                 = Z.min (Z.of_nat n) (len paths + len raws)).
  { rewrite add_in_range; unfold min_int; lia. }
  assert (Htot : add (len paths) (len raws) = len paths + len raws).
  { apply add_in_range. unfold min_int. lia. }
  exists s, g. repeat split; try assumption.
  - rewrite Position_eq, Hg, Hsum by exact Hmu. reflexivity.
  - intros Hhp. rewrite Next_eq, Hg by exact Hmu.
    unfold hasPayloads in *. rewrite Hb, Hhp, HPs, HRs, Hsum, Htot. simpl.
    f_equal. destruct (Z.of_nat n <? len paths + len raws) eqn:E.
    + replace (_ >=? _) with false by (symmetry; lia). reflexivity.
    + replace (_ >=? _) with true by (symmetry; lia). reflexivity.
Qed.

Lemma Increment_walks_paths_then_raws_witness :
  exists s g,
    state_after (CallAdd Sample.k :: replicate 3 (CallIncrement Sample.k))
      Sample.static_only = Some s
    /\ Generators s !! Sample.k = Some g
    /\ positionPath g = 2
    /\ positionRaw g = 0
    /\ Position Sample.k s = Returned 2 s
    /\ (hasPayloads Sample.static_only = false ->
        Next Sample.k s = Returned false s).
Proof.
  apply (Increment_walks_paths_then_raws Sample.LoadPayloads Sample.producer Sample.producer
           Sample.producer Sniper None ["a"; "b"]%string [] Sample.k 3).
  vm_compute. discriminate.
Defined.

Lemma bounds_after_any_calls (LoadPayloads : binding -> payload_lists)
    (sn pf cb : generator_func) (typ : generators_Type) (ps : binding)
    (paths raws : list string) (cs : list call) (s : GeneratorFSM) :
  len paths <= max_int ->
  len raws <= max_int ->
  state_after cs (NewGeneratorFSM LoadPayloads sn pf cb typ ps paths raws) = Some s ->
  stable paths raws (within_bounds paths raws) s.
Proof.
  intros HP HR Hafter.
  pose proof (len_nonneg paths) as HP0. pose proof (len_nonneg raws) as HR0.
  eapply state_after_stable; [..| apply NewGeneratorFSM_stable | exact Hafter];
    unfold within_bounds; simpl.
  - lia.
  - intros g v rest H _. exact H.
  - intros g H. exact H.
  - intros g H. exact H.
  - intros g c H _. exact H.
  - intros g [Hp Hr] Hlt. rewrite (add_one_below _ (len paths)) by lia. lia.
  - intros g [Hp Hr] Hlt _. rewrite (add_one_below _ (len raws)) by lia. lia.
Qed.

(** X10: [Next] guards [Current].  After any calls on a freshly built
    coordinator, if [Next(key)] is true then [Current(key)] returns a
    literal of the lists and does not panic: the path at [pathPosition]
    while paths are left, the raw request at [rawPosition] after that. *)
Theorem Next_guards_Current (LoadPayloads : binding -> payload_lists)
    (sn pf cb : generator_func) (typ : generators_Type) (ps : binding)
    (paths raws : list string) (cs : list call) (s : GeneratorFSM)
    (key : string) :
  len paths + len raws <= max_int ->
  state_after cs (NewGeneratorFSM LoadPayloads sn pf cb typ ps paths raws) = Some s ->
  Next key s = Returned true s ->
  exists g lit,
    Generators s !! key = Some g
    /\ Current key s = Returned lit s
    /\ ((positionPath g < len paths
         /\ paths !! Z.to_nat (positionPath g) = Some lit)
        \/ (positionPath g = len paths
            /\ raws !! Z.to_nat (positionRaw g) = Some lit)).
Proof.
  intros Hfit Hafter Hnext.
  pose proof (len_nonneg paths) as HP0. pose proof (len_nonneg raws) as HR0.
  destruct (bounds_after_any_calls LoadPayloads sn pf cb typ ps paths raws cs s)
    as (Hmu & HP & HR & Hall); [lia | lia | exact Hafter |].
  rewrite Next_eq in Hnext by exact Hmu.
  destruct (Generators s !! key) as [g|] eqn:Hg; [|discriminate].
  destruct (Hall key g Hg) as [Hpp Hpr].
  injection Hnext as Hnext. apply andb_true_iff in Hnext as [_ Hlt].
  rewrite HP, HR in Hlt.
  rewrite !add_in_range in Hlt by (unfold min_int; lia).
  assert (Hsum : positionPath g + positionRaw g < len paths + len raws).
  { destruct (_ >=? _) eqn:E; [discriminate | lia]. }
  exists g. rewrite Current_eq, Hg by exact Hmu. rewrite HP, HR.
  unfold index, ret, panic.
  destruct (Z_lt_dec (positionPath g) (len paths)) as [Hin|Hout].
  - destruct (lookup_lt_is_Some_2 paths (Z.to_nat (positionPath g)))
      as [lit Hlit]; [unfold len in Hin; lia|].
    exists lit. split; [reflexivity|]. split; [|left; auto].
    replace (positionPath g <? len paths) with true by (symmetry; lia).
    replace (len paths =? 0) with false by (symmetry; lia). simpl.
    replace (0 <=? positionPath g) with true by (symmetry; lia).
    simpl. rewrite Hlit. reflexivity.
  - destruct (lookup_lt_is_Some_2 raws (Z.to_nat (positionRaw g)))
      as [lit Hlit]; [unfold len in *; lia|].
    exists lit. split; [reflexivity|]. split; [|right; split; [lia|auto]].
    replace (positionPath g <? len paths) with false by (symmetry; lia).
    simpl.
    replace (0 <=? positionRaw g) with true by (symmetry; lia).
    replace (positionRaw g <? len raws) with true by (symmetry; lia).
    simpl. rewrite Hlit. reflexivity.
Qed.

Lemma Next_guards_Current_witness :
  exists g lit,
    Generators Sample.advanced !! Sample.k = Some g
    /\ Current Sample.k Sample.advanced = Returned lit Sample.advanced
    /\ ((positionPath g < len ["a"; "b"]%string
         /\ ["a"; "b"]%string !! Z.to_nat (positionPath g) = Some lit)
        \/ (positionPath g = len ["a"; "b"]%string
            /\ @nil string !! Z.to_nat (positionRaw g) = Some lit)).
Proof.
  apply (Next_guards_Current Sample.LoadPayloads Sample.producer
           Sample.producer Sample.producer Sniper None
           ["a"; "b"]%string []
           [CallAdd Sample.k; CallIncrement Sample.k] Sample.advanced Sample.k).
  - vm_compute. discriminate.
  - reflexivity.
  - reflexivity.
Defined.

(** ** The stream of a key *)

Lemma last_cons_default {A} (l : list A) (v d : A) :
  List.last (v :: l) d = List.last l v.
Proof.
  revert v d. induction l as [|a l IH]; intros v d; [reflexivity|].
  change (List.last (v :: a :: l) d) with (List.last (a :: l) d).
  rewrite !IH. reflexivity.
Qed.

Lemma update_key_same (key : string) (g : Generator) (s : GeneratorFSM) :
  Generators s !! key = Some g -> update_key key g s = s.
Proof.
  intros Hg. unfold update_key, set_Generators.
  rewrite insert_id by exact Hg. destruct s; reflexivity.
Qed.

Lemma update_key_twice (key : string) (g1 g2 : Generator) (s : GeneratorFSM) :
  update_key key g2 (update_key key g1 s) = update_key key g2 s.
Proof.
  unfold update_key, set_Generators. simpl.
  rewrite insert_insert_eq. reflexivity.
Qed.

(** The state after the bindings [pre] of a stream have been read. *)
Lemma ReadOne_prefix (key : string) (pre post : list binding) (tail : chan)
    (s : GeneratorFSM) (g : Generator) :
  fsm_mutex s = Unlocked ->
  Generators s !! key = Some g ->
  gchan g = Some (stream_of (pre ++ post) tail) ->
  state_after (replicate (length pre) (CallReadOne key)) s =
    Some (update_key key
            (set_currentGeneratorValue
               (List.last pre (currentGeneratorValue g))
               (set_gchan (Some (stream_of post tail)) g)) s).
Proof.
  revert s g. induction pre as [|v pre IH]; intros s g Hmu Hg Hc.
  - simpl in *. rewrite update_key_same; [reflexivity|].
    rewrite Hg. f_equal. destruct g; simpl in *. subst. reflexivity.
  - simpl in Hc.
    set (g1 := set_currentGeneratorValue v
                 (set_gchan (Some (stream_of (pre ++ post) tail)) g)).
    assert (Hrun : run (CallReadOne key) s = Returned tt (update_key key g1 s)).
    { simpl. rewrite ReadOne_eq, Hg, Hc by exact Hmu. reflexivity. }
    change (replicate (length (v :: pre)) (CallReadOne key))
      with ([CallReadOne key] ++ replicate (length pre) (CallReadOne key)).
    rewrite state_after_app, (state_after_one _ _ _ Hrun).
    rewrite (IH (update_key key g1 s) g1);
      [| exact Hmu | simpl; apply lookup_insert_eq | reflexivity].
    rewrite update_key_twice, last_cons_default. reflexivity.
Qed.

(** X11: [ReadOne] hands the bindings over in the order of the stream.  If
    the stream of a key is about to send the bindings [pre] and then
    [post], as many calls of [ReadOne(key)] as [pre] has bindings leave the
    last binding of [pre] as the value of [Value(key)] (the earlier value
    if [pre] is empty) and [post] in the stream; the counters and the phase
    are as before. *)
Theorem ReadOne_follows_the_stream (key : string) (pre post : list binding)
    (tail : chan) (s : GeneratorFSM) (g : Generator) :
  fsm_mutex s = Unlocked ->
  Generators s !! key = Some g ->
  gchan g = Some (stream_of (pre ++ post) tail) ->
  exists s' g',
    state_after (replicate (length pre) (CallReadOne key)) s = Some s'
    /\ Generators s' !! key = Some g'
    /\ gchan g' = Some (stream_of post tail)
    /\ Value key s' = Returned (List.last pre (currentGeneratorValue g)) s'
    /\ state g' = state g
    /\ positionPath g' = positionPath g
    /\ positionRaw g' = positionRaw g.
Proof.
  intros Hmu Hg Hc. eexists _, _.
  split; [apply (ReadOne_prefix key pre post tail s g); assumption|].
  split; [simpl; apply lookup_insert_eq|].
  split; [reflexivity|].
  split; [|repeat split].
  rewrite Value_eq by exact Hmu. simpl. rewrite lookup_insert_eq. reflexivity.
Qed.

Lemma ReadOne_follows_the_stream_witness :
  exists s' g',
    state_after (replicate 2 (CallReadOne Sample.k)) Sample.streaming = Some s'
    /\ Generators s' !! Sample.k = Some g'
    /\ gchan g' = Some Closed
    /\ Value Sample.k s' =
       Returned (Some {[ "var"%string := IString "y" ]}) s'
    /\ state g' = Running
    /\ positionPath g' = 0
    /\ positionRaw g' = 0.
Proof.
  apply (ReadOne_follows_the_stream Sample.k
           [Some {[ "var"%string := IString "x" ]};
            Some {[ "var"%string := IString "y" ]}] [] Closed
           Sample.streaming
           (mkGenerator Unlocked 0 0 None (Some Sample.xy) None Running));
    reflexivity.
Defined.

(** X12: [ReadOne] on a registered key that has no stream handle (the
    stream was never started, or has ended) takes the timer branch: the
    key ends in phase [Done] with no handle, its counters and its latest
    binding as before.  When payload lists are loaded, [Next(key)] is false
    from then on, even for a key that was still in phase [Init]. *)
Theorem ReadOne_without_stream_ends_the_key (key : string) (s : GeneratorFSM)
    (g : Generator) :
  fsm_mutex s = Unlocked ->
  Generators s !! key = Some g ->
  g_mutex g = Unlocked ->
  gchan g = None ->
  let s' := update_key key
              (mkGenerator Unlocked (positionPath g) (positionRaw g)
                 (currentPayloads g) None (currentGeneratorValue g) Done) s in
  ReadOne key s = Returned tt s'
  /\ (hasPayloads s = true -> Next key s' = Returned false s').
Proof.
  intros Hmu Hg Hgm Hc s'. split.
  - rewrite ReadOne_eq, Hg, Hc by exact Hmu. simpl.
    rewrite decide_True by exact Hgm.
    unfold s', update_key, set_state, set_gchan. simpl. rewrite Hgm.
    reflexivity.
  - intros Hhp. rewrite Next_eq by exact Hmu. unfold s'. simpl.
    rewrite lookup_insert_eq. simpl.
    unfold hasPayloads in *. simpl. rewrite Hhp. reflexivity.
Qed.

Lemma ReadOne_without_stream_ends_the_key_witness :
  ReadOne Sample.k (Sample.after [CallAdd Sample.k] Sample.with_payloads) =
    Returned tt
      (update_key Sample.k (mkGenerator Unlocked 0 0 None None None Done)
         (Sample.after [CallAdd Sample.k] Sample.with_payloads))
  /\ Next Sample.k
       (update_key Sample.k (mkGenerator Unlocked 0 0 None None None Done)
          (Sample.after [CallAdd Sample.k] Sample.with_payloads)) =
     Returned false
       (update_key Sample.k (mkGenerator Unlocked 0 0 None None None Done)
          (Sample.after [CallAdd Sample.k] Sample.with_payloads)).
Proof.
  destruct (ReadOne_without_stream_ends_the_key Sample.k
              (Sample.after [CallAdd Sample.k] Sample.with_payloads)
              (mkGenerator Unlocked 0 0 None None None Init)
              eq_refl eq_refl eq_refl eq_refl) as [Hread Hnext].
  split; [exact Hread | apply Hnext; reflexivity].
Defined.

(** X9: with payload lists loaded, the advance of [rawPosition] closes the
    key for [Next]: [Increment] sets the phase to [Done] together with the
    counter, so [Next(key)] is false right after it, raw requests left or
    not.  [InitOrSkip] opens the key again: it starts a stream and sets the
    phase to [Running], and [Next(key)] then depends on the counters. *)
Theorem raw_advance_closes_Next_until_InitOrSkip (key : string)
    (s : GeneratorFSM) (g : Generator) (f : generator_func) :
  fsm_mutex s = Unlocked ->
  Generators s !! key = Some g ->
  g_mutex g = Unlocked ->
  hasPayloads s = true ->
  0 < map_len (payloads s) ->
  generator s = Some f ->
  len (Paths s) <= positionPath g ->
  0 <= positionRaw g < len (Raws s) ->
  len (Raws s) <= max_int ->
  gchan g = None ->
  let s1 := update_key key
              (mkGenerator Unlocked (positionPath g) (positionRaw g + 1)
                 (currentPayloads g) None (currentGeneratorValue g) Done) s in
  Increment key s = Returned tt s1
  /\ Next key s1 = Returned false s1
  /\ exists s2,
       InitOrSkip key s1 = Returned tt s2
       /\ Generators s2 !! key =
          Some (mkGenerator Unlocked (positionPath g) (positionRaw g + 1)
                  (currentPayloads g) (Some (f (spawned s) (basePayloads s)))
                  (currentGeneratorValue g) Running)
       /\ Next key s2 =
          Returned (negb (add (positionPath g) (positionRaw g + 1)
                            >=? add (len (Paths s)) (len (Raws s)))) s2.
Proof.
  intros Hmu Hg Hgm Hhp Hps Hf Hpp Hpr HR Hc s1.
  assert (Hmu1 : fsm_mutex s1 = Unlocked) by exact Hmu.
  split; [|split].
  - rewrite Increment_eq, Hg by exact Hmu.
    replace (positionPath g <? len (Paths s)) with false by (symmetry; lia).
    rewrite andb_false_r.
    replace (len (Raws s) >? 0) with true by (symmetry; lia).
    replace (positionRaw g <? len (Raws s)) with true by (symmetry; lia).
    simpl. rewrite Hc, (add_one_below _ (len (Raws s))) by lia.
    unfold s1, update_key, set_positionRaw, set_state. simpl.
    rewrite Hgm, Hc. reflexivity.
  - rewrite Next_eq by exact Hmu1. unfold s1. simpl.
    rewrite lookup_insert_eq. simpl.
    unfold hasPayloads in *. simpl. rewrite Hhp. reflexivity.
  - eexists. split; [|split].
    + rewrite InitOrSkip_eq by exact Hmu1. unfold s1. simpl.
      rewrite lookup_insert_eq. simpl.
      replace (0 <? map_len (payloads s)) with true by (symmetry; lia).
      rewrite Hf. reflexivity.
    + simpl. rewrite lookup_insert_eq. reflexivity.
    + rewrite Next_eq by exact Hmu. simpl.
      rewrite lookup_insert_eq. simpl. rewrite andb_false_r. reflexivity.
Qed.

Lemma raw_advance_closes_Next_until_InitOrSkip_witness :
  Increment Sample.k (Sample.after [CallAdd Sample.k] Sample.with_payloads) =
    Returned tt
      (update_key Sample.k (mkGenerator Unlocked 0 1 None None None Done)
         (Sample.after [CallAdd Sample.k] Sample.with_payloads))
  /\ Next Sample.k
       (update_key Sample.k (mkGenerator Unlocked 0 1 None None None Done)
          (Sample.after [CallAdd Sample.k] Sample.with_payloads)) =
     Returned false
       (update_key Sample.k (mkGenerator Unlocked 0 1 None None None Done)
          (Sample.after [CallAdd Sample.k] Sample.with_payloads)).
Proof.
  destruct (raw_advance_closes_Next_until_InitOrSkip Sample.k
              (Sample.after [CallAdd Sample.k] Sample.with_payloads)
              (mkGenerator Unlocked 0 0 None None None Init)
              Sample.producer)
    as (Hinc & Hnext & _); try reflexivity.
  - vm_compute. split; [discriminate | reflexivity].
  - vm_compute. discriminate.
  - split; [exact Hinc | exact Hnext].
Defined.

(** X13: on a coordinator built with payload specifications, [InitOrSkip]
    on a registered key always returns and leaves the key with a live
    stream handle, after any earlier calls: a key without a handle gets
    the stream of the producer chosen from the combination mode, over the
    loaded payload lists, and the phase [Running]; a key with a handle is
    left as it is. *)
Theorem InitOrSkip_leaves_a_live_stream (LoadPayloads : binding -> payload_lists)
    (sn pf cb : generator_func) (typ : generators_Type) (ps : binding)
    (paths raws : list string) (cs : list call) (s : GeneratorFSM)
    (key : string) (g : Generator) :
  0 < map_len ps ->
  state_after cs (NewGeneratorFSM LoadPayloads sn pf cb typ ps paths raws) = Some s ->
  Generators s !! key = Some g ->
  exists s' g',
    InitOrSkip key s = Returned tt s'
    /\ Generators s' !! key = Some g'
    /\ is_Some (gchan g')
    /\ (gchan g = None ->
        gchan g' =
          Some (match typ with
                | Sniper => sn
                | PitchFork => pf
                | ClusterBomb => cb
                end (spawned s) (LoadPayloads ps))
        /\ state g' = Running
        /\ spawned s' = S (spawned s))
    /\ (is_Some (gchan g) -> s' = s).
Proof.
  intros Hlen Hafter Hg.
  destruct (ready_after_any_calls _ _ _ _ _ _ _ _ _ _ Hafter) as (Hmu & Hk & _).
  destruct (state_after_invariant
              (fun x => payloads x = ps /\ basePayloads x = LoadPayloads ps
                        /\ generator x =
                           Some match typ with
                                | Sniper => sn
                                | PitchFork => pf
                                | ClusterBomb => cb
                                end)
              cs (NewGeneratorFSM LoadPayloads sn pf cb typ ps paths raws) s)
    as [(Hp & Hb & Hgen) _];
    [ | apply NewGeneratorFSM_unlocked | | exact Hafter | ].
  - intros c x y Hx Hstep. destruct Hstep; simpl; exact Hx.
  - unfold NewGeneratorFSM.
    replace (0 <? map_len ps) with true by (symmetry; lia). simpl.
    repeat split.
  - rewrite InitOrSkip_eq, Hg, Hp by exact Hmu.
    replace (0 <? map_len ps) with true by (symmetry; lia).
    rewrite decide_True by (eapply Hk; exact Hg).
    destruct (gchan g) as [c|] eqn:Hc.
    + exists s, g. repeat split; try assumption; try (rewrite Hc; eauto).
      all: discriminate.
    + rewrite Hgen, Hb. eexists _, _. split; [reflexivity|]. simpl.
      rewrite lookup_insert_eq. split; [reflexivity|]. simpl.
      split; [eauto|]. split; [auto|].
      intros [c Hc']. discriminate.
Qed.

Lemma InitOrSkip_leaves_a_live_stream_witness :
  exists s' g',
    InitOrSkip Sample.k (Sample.after [CallAdd Sample.k] Sample.with_payloads) =
      Returned tt s'
    /\ Generators s' !! Sample.k = Some g'
    /\ gchan g' = Some Sample.xy
    /\ state g' = Running.
Proof.
  destruct (InitOrSkip_leaves_a_live_stream Sample.LoadPayloads Sample.producer
              Sample.producer Sample.producer Sniper Sample.specs
              [] ["r"%string] [CallAdd Sample.k]
              (Sample.after [CallAdd Sample.k] Sample.with_payloads) Sample.k
              (mkGenerator Unlocked 0 0 None None None Init))
    as (s' & g' & Hrun & Hg' & _ & Hnew & _).
  - vm_compute. reflexivity.
  - reflexivity.
  - reflexivity.
  - destruct (Hnew eq_refl) as (Hc & Hst & _).
    exists s', g'. repeat split; assumption.
Defined.

Lemma ReadOne_closed_eq (key : string) (s : GeneratorFSM) (g : Generator) :
  fsm_mutex s = Unlocked ->
  Generators s !! key = Some g ->
  g_mutex g = Unlocked ->
  gchan g = Some Closed ->
  ReadOne key s =
    Returned tt
      (update_key key
         (set_currentGeneratorValue None (set_state Done (set_gchan None g))) s).
Proof.
  intros Hmu Hg Hgm Hc. rewrite ReadOne_eq, Hg, Hc by exact Hmu. simpl.
  rewrite decide_True by exact Hgm. reflexivity.
Qed.

(** X16: one whole turn on a raw request.  For a key whose paths are
    walked and that has no stream handle, on a coordinator with payloads
    whose producer sends the bindings [vs] and closes: [InitOrSkip], then
    one [ReadOne] for each binding and one more that meets the closed
    channel, then [Increment], all return and leave the key one raw
    request further, in phase [Done], with no handle and no latest
    binding; one stream has been taken and no other key has changed. *)
Theorem one_stream_per_raw_request (key : string) (s : GeneratorFSM)
    (g : Generator) (f : generator_func) (vs : list binding) :
  fsm_mutex s = Unlocked ->
  Generators s !! key = Some g ->
  g_mutex g = Unlocked ->
  gchan g = None ->
  0 < map_len (payloads s) ->
  generator s = Some f ->
  f (spawned s) (basePayloads s) = stream_of vs Closed ->
  len (Paths s) <= positionPath g ->
  0 <= positionRaw g < len (Raws s) ->
  len (Raws s) <= max_int ->
  state_after
    (CallInitOrSkip key
       :: replicate (length vs) (CallReadOne key)
       ++ [CallReadOne key; CallIncrement key]) s =
    Some (set_spawned (S (spawned s))
            (update_key key
               (mkGenerator Unlocked (positionPath g) (positionRaw g + 1)
                  (currentPayloads g) None None Done) s)).
Proof.
  intros Hmu Hg Hgm Hc Hps Hf Hvs Hpp Hpr HR.
  set (g1 := set_state Running (set_gchan (Some (stream_of vs Closed)) g)).
  set (s1 := set_spawned (S (spawned s)) (update_key key g1 s)).
  assert (H1 : run (CallInitOrSkip key) s = Returned tt s1).
  { simpl. rewrite InitOrSkip_eq, Hg by exact Hmu.
    replace (0 <? map_len (payloads s)) with true by (symmetry; lia).
    rewrite decide_True, Hc, Hf, Hvs by exact Hgm. reflexivity. }
  change (CallInitOrSkip key
            :: replicate (length vs) (CallReadOne key)
            ++ [CallReadOne key; CallIncrement key])
    with ([CallInitOrSkip key]
            ++ replicate (length vs) (CallReadOne key)
            ++ [CallReadOne key; CallIncrement key]).
  rewrite state_after_app, (state_after_one _ _ _ H1).
  rewrite state_after_app.
  rewrite (ReadOne_prefix key vs [] Closed s1 g1);
    [| exact Hmu | simpl; apply lookup_insert_eq
     | rewrite app_nil_r; reflexivity].
  set (g2 := set_currentGeneratorValue
               (List.last vs (currentGeneratorValue g1))
               (set_gchan (Some (stream_of [] Closed)) g1)).
  set (g3 := set_currentGeneratorValue None (set_state Done (set_gchan None g2))).
  assert (H3 : run (CallReadOne key) (update_key key g2 s1)
               = Returned tt (update_key key g3 s1)).
  { simpl.
    rewrite (ReadOne_closed_eq key (update_key key g2 s1) g2);
      [| exact Hmu | simpl; apply lookup_insert_eq | exact Hgm | reflexivity].
    fold g3. rewrite update_key_twice. reflexivity. }
  change [CallReadOne key; CallIncrement key]
    with ([CallReadOne key] ++ [CallIncrement key]).
  rewrite state_after_app, (state_after_one _ _ _ H3).
  apply state_after_one. simpl.
  rewrite Increment_eq by exact Hmu. simpl.
  rewrite lookup_insert_eq. simpl.
  replace (positionPath g <? len (Paths s)) with false by (symmetry; lia).
  rewrite andb_false_r.
  replace (len (Raws s) >? 0) with true by (symmetry; lia).
  replace (positionRaw g <? len (Raws s)) with true by (symmetry; lia).
  simpl. rewrite (add_one_below _ (len (Raws s))) by lia.
  unfold update_key, set_Generators, set_spawned, set_positionRaw, set_state.
  simpl. rewrite !insert_insert_eq, Hgm. reflexivity.
Qed.

Lemma one_stream_per_raw_request_witness :
  state_after
    [CallInitOrSkip Sample.k; CallReadOne Sample.k; CallReadOne Sample.k;
     CallReadOne Sample.k; CallIncrement Sample.k]
    (Sample.after [CallAdd Sample.k] Sample.with_payloads) =
    Some (set_spawned 1
            (update_key Sample.k (mkGenerator Unlocked 0 1 None None None Done)
               (Sample.after [CallAdd Sample.k] Sample.with_payloads))).
Proof.
  apply (one_stream_per_raw_request Sample.k
           (Sample.after [CallAdd Sample.k] Sample.with_payloads)
           (mkGenerator Unlocked 0 0 None None None Init)
           Sample.producer
           [Some {[ "var"%string := IString "x" ]};
            Some {[ "var"%string := IString "y" ]}]);
    try reflexivity.
  - vm_compute. split; [discriminate | reflexivity].
  - vm_compute. discriminate.
Defined.
